(** * PageRank (pagerank.py): a shallow embedding and its verification

    The development follows [src/pagerank/pagerank.py]:
    - [transition_model]  (lines 51-79),
    - [sample_pagerank]   (lines 82-111),
    - [iterate_pagerank]  (lines 114-155).

    Conventions of the embedding.
    - A Python [dict] is an association list in insertion order
      (module [Dict]); assigning to a present key keeps its position,
      assigning to an absent key appends.
    - A Python [set] of page names is the list of its elements in the
      order the interpreter iterates them.
    - Python numbers are exact rationals ([Q]); [/] is true division and
      raises [ZeroDivisionError] on a zero divisor. Equalities and bounds
      between computed numbers are therefore statements of exact
      arithmetic; the rounding of floats is not modelled.
    - Exceptions are values of [pyerr]; a computation is an [outcome].
    - The global random generator is an explicit tape of raw draws.
    - The [while] loop of [iterate_pagerank] is bounded by fuel. *)

From Stdlib Require Import List String ZArith QArith Qabs Qround.
From Stdlib Require Import Lia Lqa Bool Permutation Arith.
Import ListNotations.

Open Scope Q_scope.

(** ** Outcomes of Python computations *)

Inductive pyerr : Type :=
| KeyError
| ZeroDivisionError
| IndexError
| ValueError
| TypeError
| OSError
| UnicodeDecodeError.

Inductive outcome (A : Type) : Type :=
| Ret (a : A)
| Raise (e : pyerr)
| OutOfFuel.

Arguments Ret {A} a.
Arguments Raise {A} e.
Arguments OutOfFuel {A}.

Definition bind {A B : Type} (m : outcome A) (k : A -> outcome B) : outcome B :=
  match m with
  | Ret a => k a
  | Raise e => Raise e
  | OutOfFuel => OutOfFuel
  end.

Notation "x <- m ;; k" := (bind m (fun x => k))
  (at level 61, m at next level, right associativity).
Notation "' pat <- m ;; k" := (bind m (fun x => match x with pat => k end))
  (at level 61, pat pattern, m at next level, right associativity).

(** [for x in xs: body] threading the loop-carried state. *)
Fixpoint foreach {A S : Type} (xs : list A) (s : S)
         (body : A -> S -> outcome S) : outcome S :=
  match xs with
  | [] => Ret s
  | x :: xs' => s' <- body x s ;; foreach xs' s' body
  end.


(** ** Pages, sets and dictionaries *)

Definition page : Type := string.

(** [p in s] for a set (or a list of keys). *)
Fixpoint mem (p : page) (s : list page) : bool :=
  match s with
  | [] => false
  | q :: s' => if String.eqb p q then true else mem p s'
  end.

(** [len(x)] as a Python number. *)
Definition len {A : Type} (l : list A) : Q := inject_Z (Z.of_nat (List.length l)).

(** [a / b] *)
Definition truediv (a b : Q) : outcome Q :=
  if Qeq_bool b 0 then Raise ZeroDivisionError else Ret (a / b).

Module Dict.

Definition t (V : Type) : Type := list (page * V).

Definition keys {V : Type} (d : t V) : list page := map fst d.
Definition values {V : Type} (d : t V) : list V := map snd d.

Fixpoint get {V : Type} (d : t V) (k : page) : option V :=
  match d with
  | [] => None
  | (k', v) :: d' => if String.eqb k k' then Some v else get d' k
  end.

(** [d[k] = v] *)
Fixpoint set {V : Type} (d : t V) (k : page) (v : V) : t V :=
  match d with
  | [] => [(k, v)]
  | (k', v') :: d' =>
      if String.eqb k k' then (k', v) :: d' else (k', v') :: set d' k v
  end.

(** [d[k]] *)
Definition getitem {V : Type} (d : t V) (k : page) : outcome V :=
  match get d k with
  | Some v => Ret v
  | None => Raise KeyError
  end.

End Dict.

(** The corpus: every page mapped to the set of pages it links to. *)
Definition Corpus : Type := Dict.t (list page).

(** A distribution: page mapped to a number. *)
Definition Distribution : Type := Dict.t Q.

(** The two kinds of container that [transition_model] compares with [==]. *)
Inductive pyobj : Type :=
| PySet (elts : list page)
| PyDict (items : Distribution).

Definition subset (s t : list page) : bool := forallb (fun p => mem p t) s.

Definition dict_le (d e : Distribution) : bool :=
  forallb (fun kv => match Dict.get e (fst kv) with
                     | Some w => Qeq_bool (snd kv) w
                     | None => false
                     end) d.

(** [a == b]: a set and a dict never compare equal. *)
Definition py_eq (a b : pyobj) : bool :=
  match a, b with
  | PySet s, PySet t => subset s t && subset t s
  | PyDict d, PyDict e => dict_le d e && dict_le e d
  | _, _ => false
  end.

(** ** transition_model (lines 51-79) *)

(** The function returns [distribution] on line 79 and [corpus] on line 68. *)
Inductive tm_result : Type :=
| TMDist (distribution : Distribution)
| TMCorpus (corpus : Corpus).

Definition transition_model (corpus : Corpus) (page0 : page)
           (damping_factor : Q) : outcome tm_result :=
  let distribution : Distribution := [] in
  links <- Dict.getitem corpus page0 ;;
  let pages := len corpus in
  let d := corpus in
  if py_eq (PySet links) (PyDict []) then
    distribution <- foreach (Dict.keys corpus) distribution
      (fun link distribution =>
         v <- truediv 1 pages ;;
         Ret (Dict.set distribution link v)) ;;
    Ret (TMCorpus corpus)
  else
    distribution <- foreach links distribution
      (fun page distribution =>
         v <- truediv damping_factor (len links) ;;
         Ret (Dict.set distribution page v)) ;;
    distribution <- foreach (Dict.keys corpus) distribution
      (fun page distribution =>
         if mem page links then
           old <- Dict.getitem distribution page ;;
           v <- truediv (1 - damping_factor) (len corpus) ;;
           Ret (Dict.set distribution page (old + v))
         else
           v <- truediv (1 - damping_factor) (len corpus) ;;
           Ret (Dict.set distribution page v)) ;;
    Ret (TMDist distribution).

(** ** The random module

    The generator is a tape of raw draws; [random()] yields a multiple of
    2^-53 in [0,1) and [_randbelow(n)] a number below [n].  An exhausted
    tape keeps yielding the draw 0. *)

Definition rng : Type := list N.

Definition next_raw (g : rng) : N * rng :=
  match g with
  | [] => (0%N, [])
  | k :: g' => (k, g')
  end.

Definition two53 : N := 9007199254740992%N.

(** [random.random()] *)
Definition random (g : rng) : Q * rng :=
  let (k, g') := next_raw g in
  (Z.of_N (k mod two53) # 9007199254740992, g').

(** [random._randbelow(n)] for [n > 0] *)
Definition randbelow (n : nat) (g : rng) : nat * rng :=
  let (k, g') := next_raw g in
  (N.to_nat (k mod N.of_nat n), g').

(** [random.choice(seq)] *)
Definition random_choice {A : Type} (seq : list A) (g : rng)
  : outcome (A * rng) :=
  match seq with
  | [] => Raise IndexError
  | x :: _ =>
      let (i, g') := randbelow (List.length seq) g in
      Ret (nth i seq x, g')
  end.

(** [itertools.accumulate(weights)] *)
Fixpoint accumulate_from (total : Q) (ws : list Q) : list Q :=
  match ws with
  | [] => []
  | w :: ws' => (total + w) :: accumulate_from (total + w) ws'
  end.

Definition accumulate (ws : list Q) : list Q :=
  match ws with
  | [] => []
  | w :: ws' => w :: accumulate_from w ws'
  end.

(** [bisect.bisect_right(a, x, lo, hi)]: the binary search of the
    library, whose interval halves at every round. *)
Fixpoint bisect_right (rounds : nat) (a : list Q) (x : Q) (lo hi : nat) : nat :=
  match rounds with
  | O => lo
  | S rounds' =>
      if (lo <? hi)%nat then
        let mid := ((lo + hi) / 2)%nat in
        if negb (Qle_bool (nth mid a 0) x)
        then bisect_right rounds' a x lo mid
        else bisect_right rounds' a x (mid + 1)%nat hi
      else lo
  end.

(** [random.choices(population, weights=weights, k=1).pop()] *)
Definition random_choices {A : Type} (population : list A) (weights : list Q)
           (g : rng) : outcome (A * rng) :=
  let n := List.length population in
  let cum_weights := accumulate weights in
  if negb (List.length cum_weights =? n)%nat then Raise ValueError else
  match rev cum_weights with
  | [] => Raise IndexError
  | total :: _ =>
      if Qle_bool total 0 then Raise ValueError else
      let (u, g') := random g in
      let i := bisect_right (S n) cum_weights (u * total) 0 (n - 1) in
      match nth_error population i with
      | Some x => Ret (x, g')
      | None => Raise IndexError
      end
  end.

(** ** sample_pagerank (lines 82-111) *)

(** The loop-carried state: the current page, the tally, the generator. *)
Definition sample_state : Type := (page * Distribution * rng)%type.

(** Lines 102-105: [pagerank[page] += 1] or [pagerank[page] = 1]. *)
Definition record_visit (pagerank : Distribution) (page0 : page) : Distribution :=
  match Dict.get pagerank page0 with
  | Some c => Dict.set pagerank page0 (c + 1)
  | None => Dict.set pagerank page0 1
  end.

(** One round of the loop of lines 97-105. *)
Definition sample_step (corpus : Corpus) (damping_factor : Q)
           (st : sample_state) : outcome sample_state :=
  let '(page, pagerank, g) := st in
  prob <- transition_model corpus page damping_factor ;;
  match prob with
  | TMCorpus _ => Raise TypeError
  | TMDist prob =>
      '(page, g) <- random_choices (Dict.keys prob) (Dict.values prob) g ;;
      Ret (page, record_visit pagerank page, g)
  end.

(** [for i in range(k)] *)
Fixpoint sample_loop (k : nat) (corpus : Corpus) (damping_factor : Q)
         (st : sample_state) : outcome sample_state :=
  match k with
  | O => Ret st
  | S k' =>
      st' <- sample_step corpus damping_factor st ;;
      sample_loop k' corpus damping_factor st'
  end.

Definition sample_pagerank (corpus : Corpus) (damping_factor : Q) (n : Z)
           (g : rng) : outcome Distribution :=
  let pagerank : Distribution := [] in
  '(page, g) <- random_choice (Dict.keys corpus) g ;;
  '(_, pagerank, _) <-
     sample_loop (Z.to_nat (n - 1)) corpus damping_factor (page, pagerank, g) ;;
  foreach (Dict.keys pagerank) pagerank
    (fun page pagerank =>
       c <- Dict.getitem pagerank page ;;
       v <- truediv c (inject_Z n) ;;
       Ret (Dict.set pagerank page v)).

(** The pages drawn by the loop, in order: the visits that are tallied. *)
Fixpoint visits_from (k : nat) (corpus : Corpus) (damping_factor : Q)
         (st : sample_state) : outcome (list page) :=
  match k with
  | O => Ret []
  | S k' =>
      st' <- sample_step corpus damping_factor st ;;
      rest <- visits_from k' corpus damping_factor st' ;;
      Ret (fst (fst st') :: rest)
  end.

Definition visits (corpus : Corpus) (damping_factor : Q) (n : Z) (g : rng)
  : outcome (list page) :=
  '(page, g) <- random_choice (Dict.keys corpus) g ;;
  visits_from (Z.to_nat (n - 1)) corpus damping_factor (page, [], g).

(** The start page chosen on line 94. *)
Definition start_page (corpus : Corpus) (g : rng) : outcome page :=
  '(page, _) <- random_choice (Dict.keys corpus) g ;; Ret page.

(** ** iterate_pagerank (lines 114-155) *)

(** The literal [0.001] of line 145. *)
Definition threshold : Q := 1 # 1000.

(** Lines 134-140: the sum accumulated in [prob] for one [page]. *)
Definition inflow (corpus : Corpus) (d_copy : Distribution) (page0 : page)
  : outcome Q :=
  foreach corpus 0
    (fun item prob =>
       let '(page_i, pages) := item in
       if mem page0 pages then
         r <- Dict.getitem d_copy page_i ;;
         q <- truediv r (len pages) ;;
         Ret (prob + q)
       else if Qeq_bool (len pages) 0 then
         q <- truediv 1 (len corpus) ;;
         Ret (prob + q)
       else Ret prob).

(** Lines 131-142: one sweep; returns the updated [d] and [d_diff]. *)
Definition sweep (corpus : Corpus) (damping_factor : Q) (d : Distribution)
  : outcome (Distribution * Distribution) :=
  let d_copy := d in
  let d_diff : Distribution := [] in
  foreach (Dict.keys corpus) (d, d_diff)
    (fun page st =>
       let '(d, d_diff) := st in
       prob <- inflow corpus d_copy page ;;
       t <- truediv (1 - damping_factor) (len corpus) ;;
       let d := Dict.set d page (t + damping_factor * prob) in
       old <- Dict.getitem d_copy page ;;
       new <- Dict.getitem d page ;;
       Ret (d, Dict.set d_diff page (Qabs (old - new)))).

(** Lines 143-146: the value of [not_convergent] after the check. *)
Definition check_diff (d_diff : Distribution) : outcome bool :=
  foreach (Dict.keys d_diff) false
    (fun page not_convergent =>
       v <- Dict.getitem d_diff page ;;
       if negb (Qle_bool v threshold) then Ret true else Ret not_convergent).

(** The [while not_convergent] loop, entered with [not_convergent = True]. *)
Fixpoint iterate_loop (fuel : nat) (corpus : Corpus) (damping_factor : Q)
         (d : Distribution) : outcome Distribution :=
  match fuel with
  | O => OutOfFuel
  | S fuel' =>
      '(d, d_diff) <- sweep corpus damping_factor d ;;
      not_convergent <- check_diff d_diff ;;
      if not_convergent
      then iterate_loop fuel' corpus damping_factor d
      else Ret d
  end.

(** Lines 148-153: the final normalisation. *)
Definition normalize (d : Distribution) : outcome Distribution :=
  sum_pagerank <- foreach (Dict.keys d) 0
    (fun k sum_pagerank => v <- Dict.getitem d k ;; Ret (sum_pagerank + v)) ;;
  foreach (Dict.keys d) d
    (fun k d =>
       v <- Dict.getitem d k ;;
       q <- truediv v sum_pagerank ;;
       Ret (Dict.set d k q)).

Definition iterate_pagerank (fuel : nat) (corpus : Corpus) (damping_factor : Q)
  : outcome Distribution :=
  let pages := len corpus in
  d <- foreach (Dict.keys corpus) ([] : Distribution)
    (fun page d =>
       v <- truediv 1 (len corpus) ;;
       Ret (Dict.set d page v)) ;;
  d <- iterate_loop fuel corpus damping_factor d ;;
  normalize d.

(** ** Concrete corpora used in the examples *)

Open Scope string_scope.

(** [{"a": set()}] *)
Definition corpus_single : Corpus := [("a", [])].

(** [{"a": {"b"}, "b": set()}] *)
Definition corpus_chain : Corpus := [("a", ["b"]); ("b", [])].

(** [{"a": {"b"}, "b": {"a"}}] *)
Definition corpus_pair : Corpus := [("a", ["b"]); ("b", ["a"])].

(** [{"a": {"b"}, "b": {"a"}, "c": {"a"}}]: nothing links to "c". *)
Definition corpus_three : Corpus := [("a", ["b"]); ("b", ["a"]); ("c", ["a"])].

(** [{"a": {"b", "c"}, "b": {"a", "c"}, "c": {"a", "b"}}], and the same
    corpus with every set iterated in the other order. *)
Definition corpus_triangle : Corpus :=
  [("a", ["b"; "c"]); ("b", ["a"; "c"]); ("c", ["a"; "b"])].

Definition corpus_triangle' : Corpus :=
  [("a", ["c"; "b"]); ("b", ["c"; "a"]); ("c", ["b"; "a"])].

Close Scope string_scope.

(** The sum of the values of a distribution. *)
Definition total (d : Distribution) : Q :=
  fold_right Qplus 0 (Dict.values d).

(** The association list is a dict: its keys are distinct. *)
Definition dict_ok {V : Type} (d : Dict.t V) : Prop := NoDup (Dict.keys d).

(** Every link leads to a page of the corpus (what [crawl] ensures on
    lines 42-46). *)
Definition links_closed (corpus : Corpus) : Prop :=
  forall p links, In (p, links) corpus -> incl links (Dict.keys corpus).

(** What the key set, the well-formedness and the sign of the result are. *)
Definition tm_post (corpus : Corpus) (links : list page) (damping_factor : Q)
           (dist : Distribution) : Prop :=
  (forall k, In k (Dict.keys dist) <-> In k links \/ In k (Dict.keys corpus))
  /\ dict_ok dist
  /\ (0 < damping_factor -> damping_factor < 1 ->
      Forall (fun v => 0 < v) (Dict.values dist)).

(** The value [transition_model] gives to a page of the corpus. *)
Definition tm_value (corpus : Corpus) (links : list page) (damping_factor : Q)
           (k : page) : Q :=
  if mem k links
  then damping_factor / len links + (1 - damping_factor) / len corpus
  else (1 - damping_factor) / len corpus.

(** ** What one sweep of [iterate_pagerank] computes

    The same arithmetic as [inflow] and [sweep], written without the
    error monad; [sweep_computes] below proves that they agree. *)

(** [rank[k]], read as 0 for a missing key. *)
Definition lookup (rank : Distribution) (k : page) : Q :=
  match Dict.get rank k with
  | Some v => v
  | None => 0
  end.

(** One round of the loop of lines 136-140. *)
Definition inflow_step (corpus : Corpus) (rank : Distribution) (p : page)
           (prob : Q) (item : page * list page) : Q :=
  if mem p (snd item) then prob + lookup rank (fst item) / len (snd item)
  else if Qeq_bool (len (snd item)) 0 then prob + 1 / len corpus
  else prob.

Definition inflow_value (corpus : Corpus) (rank : Distribution) (p : page) : Q :=
  fold_left (inflow_step corpus rank p) corpus 0.

(** Line 141. *)
Definition new_rank (corpus : Corpus) (damping_factor : Q)
           (rank : Distribution) (p : page) : Q :=
  (1 - damping_factor) / len corpus
  + damping_factor * inflow_value corpus rank p.

Definition sweep_value (corpus : Corpus) (damping_factor : Q)
           (rank : Distribution) : Distribution :=
  map (fun kv => (fst kv, new_rank corpus damping_factor rank (fst kv))) corpus.

Definition sweep_diff (corpus : Corpus) (damping_factor : Q)
           (rank : Distribution) : Distribution :=
  map (fun kv => (fst kv,
                  Qabs (lookup rank (fst kv)
                        - new_rank corpus damping_factor rank (fst kv))))
      corpus.

(** Lines 127-128: every page starts at [1 / len(corpus)]. *)
Definition initial_rank (corpus : Corpus) : Distribution :=
  map (fun kv => (fst kv, 1 / len corpus)) corpus.

(** Line 145: [d_diff[page] > 0.001]. *)
Definition exceeds (v : Q) : bool := negb (Qle_bool v threshold).

(** Lines 148-150: the divisor of the final normalisation. *)
Definition sum_pagerank_of (d : Distribution) : Q :=
  fold_left Qplus (Dict.values d) 0.

(** No page has a negative rank. *)
Definition nonneg_rank (rank : Distribution) : Prop :=
  forall k, 0 <= lookup rank k.

(** Sums over a list. *)
Definition Qsum {A : Type} (f : A -> Q) (l : list A) : Q :=
  fold_right (fun x s => f x + s) 0 l.

(** The share of the rank of [item] that reaches [p] along a link. *)
Definition link_share (rank : Distribution) (p : page)
           (item : page * list page) : Q :=
  if mem p (snd item) then lookup rank (fst item) / len (snd item) else 0.

(** What a page without links adds to every [prob] in the code: the
    constant [1 / len(corpus)]. *)
Definition dangling_share (corpus : Corpus) (item : page * list page) : Q :=
  if Qeq_bool (len (snd item)) 0 then 1 / len corpus else 0.

(** What the specification lets a page without links add: its own rank
    divided by the number of pages. *)
Definition spec_dangling_share (corpus : Corpus) (rank : Distribution)
           (item : page * list page) : Q :=
  if Qeq_bool (len (snd item)) 0 then lookup rank (fst item) / len corpus else 0.

(** The recurrence of section 4.3 of the specification, in its words:
    (1 - d)/|V| + d * (sum over the pages i that link to p of
    rank(i)/|successors(i)|) + d * (sum over the dangling pages i of
    rank(i)/|V|). *)
Definition spec_new_rank (corpus : Corpus) (damping_factor : Q)
           (rank : Distribution) (p : page) : Q :=
  (1 - damping_factor) / len corpus
  + damping_factor * Qsum (link_share rank p) corpus
  + damping_factor * Qsum (spec_dangling_share corpus rank) corpus.

(** The total change of a sweep: the sum of the values of [d_diff]. *)
Definition sweep_change (corpus : Corpus) (damping_factor : Q)
           (rank : Distribution) : Q :=
  Qsum (fun kv => Qabs (lookup rank (fst kv)
                        - new_rank corpus damping_factor rank (fst kv)))
       corpus.

(** Two corpora that are the same Python value built in the same order:
    the same keys in the same order, each with the same set of links,
    whatever order the interpreter iterates each set in. *)
Definition same_graph (c1 c2 : Corpus) : Prop :=
  Forall2 (fun x y => fst x = fst y /\ Permutation (snd x) (snd y)) c1 c2.

(** ** crawl (lines 24-48)

    The directory is given as [os.listdir] returns it, every name with the
    text [f.read()] yields for it; the regular-expression search of line 38
    is the parameter [findall]. This is [crawl] on a directory that can be
    read; [crawl_files] below adds a failing [os.listdir] and entries that
    cannot be read. *)

(** [s.endswith(suffix)] *)
Definition endswith (s suffix : string) : bool :=
  let n := String.length s in
  let m := String.length suffix in
  (m <=? n)%nat && String.eqb (substring (n - m) m s) suffix.

(** [set(l)]: the distinct elements of a list. *)
Definition set_of (l : list page) : list page := nodup string_dec l.

(** [s - t] for sets. *)
Definition set_minus (s t : list page) : list page :=
  filter (fun x => negb (mem x t)) s.

Definition crawl (findall : string -> list string)
           (directory : list (string * string)) : outcome Corpus :=
  let pages : Corpus := [] in
  pages <- foreach directory pages
    (fun entry pages =>
       let '(filename, contents) := entry in
       if negb (endswith filename ".html") then Ret pages
       else
         let links := findall contents in
         Ret (Dict.set pages filename (set_minus (set_of links) [filename]))) ;;
  foreach (Dict.keys pages) pages
    (fun filename pages =>
       links <- Dict.getitem pages filename ;;
       Ret (Dict.set pages filename
                     (filter (fun link => mem link (Dict.keys pages)) links))).

(** The entries of a directory that [crawl] reads. *)
Definition html_entries (directory : list (string * string))
  : list (string * string) :=
  filter (fun entry => endswith (fst entry) ".html") directory.

(** What [crawl] returns for a directory with distinct names (proved in
    [crawl_computes]): every [.html] name, in the order of the listing,
    with the links found in its text, without the name itself and without
    the links that are not [.html] names of the directory. *)
Definition crawl_value (findall : string -> list string)
           (directory : list (string * string)) : Corpus :=
  map (fun entry =>
         (fst entry,
          filter (fun link => mem link (map fst (html_entries directory)))
                 (set_minus (set_of (findall (snd entry))) [fst entry])))
      (html_entries directory).

(** A directory and a link search used in the examples: the text of a
    file is the list of its links, one character each. *)
Definition example_findall (contents : string) : list string :=
  map (fun c => String c ".html") (list_ascii_of_string contents).

Definition example_directory : list (string * string) :=
  [("1.html", "231"); ("notes.txt", "12"); ("2.html", "3x"); ("3.html", "")]%string.

(** ** crawl with the file system made explicit

    What [open(...).read()] yields for a directory entry (lines 36-37):
    the text of a file that can be read, or the exception raised for an
    entry that cannot be opened or decoded (a directory, a file without
    permission, a file that is not valid text). *)
Inductive file : Type :=
| Readable (contents : string)
| Unreadable (e : pyerr).

Definition read_file (f : file) : outcome string :=
  match f with
  | Readable contents => Ret contents
  | Unreadable e => Raise e
  end.

(** [crawl] on a file system: [listdir] is the outcome of
    [os.listdir(directory)] (line 33), every name with what reading the
    entry yields. A file is read only when its name ends in ".html". *)
Definition crawl_files (findall : string -> list string)
           (listdir : outcome (list (string * file))) : outcome Corpus :=
  let pages : Corpus := [] in
  entries <- listdir ;;
  pages <- foreach entries pages
    (fun entry pages =>
       let '(filename, f) := entry in
       if negb (endswith filename ".html") then Ret pages
       else
         contents <- read_file f ;;
         let links := findall contents in
         Ret (Dict.set pages filename (set_minus (set_of links) [filename]))) ;;
  foreach (Dict.keys pages) pages
    (fun filename pages =>
       links <- Dict.getitem pages filename ;;
       Ret (Dict.set pages filename
                     (filter (fun link => mem link (Dict.keys pages)) links))).

(** The text of an entry, empty for one that cannot be read. *)
Definition text_of (f : file) : string :=
  match f with
  | Readable contents => contents
  | Unreadable _ => EmptyString
  end.

Definition texts_of (entries : list (string * file)) : list (string * string) :=
  map (fun entry => (fst entry, text_of (snd entry))) entries.

(** Every entry whose name ends in ".html" can be read. *)
Definition html_readable (entries : list (string * file)) : Prop :=
  forall name e, In (name, Unreadable e) entries -> endswith name ".html" = false.

(** The example directory as a file system; "notes.txt" cannot be read. *)
Definition example_files : list (string * file) :=
  [("1.html", Readable "231"); ("notes.txt", Unreadable OSError);
   ("2.html", Readable "3x"); ("3.html", Readable "")]%string.

(** Every link set has distinct elements. *)
Definition sets_ok (corpus : Corpus) : Prop :=
  Forall (fun kv => NoDup (snd kv)) corpus.

(** How often a page occurs among the recorded visits. *)
Definition visit_count (p : page) (vs : list page) : Q :=
  inject_Z (Z.of_nat (count_occ string_dec vs p)).

(** What a page passes on to the others in one sweep: its rank if it has
    links, the constant 1 if it has none. *)
Definition passed_on (rank : Distribution) (item : page * list page) : Q :=
  if Qeq_bool (len (snd item)) 0 then 1 else lookup rank (fst item).

(** * Basic facts *)

Lemma bind_ret_inv {A B : Type} (m : outcome A) (k : A -> outcome B) (b : B) :
  bind m k = Ret b -> exists a, m = Ret a /\ k a = Ret b.
Proof.
  destruct m as [a| |]; simpl; intros H; try discriminate.
  exists a; split; [reflexivity | exact H].
Qed.

Lemma mem_In (p : page) (s : list page) : mem p s = true <-> In p s.
Proof.
  induction s as [|q s IH]; simpl.
  - split; [discriminate | tauto].
  - destruct (String.eqb_spec p q) as [->|Hne].
    + split; auto.
    + rewrite IH. split; [auto | intros [H | H]; [congruence | exact H]].
Qed.

Lemma mem_false_In (p : page) (s : list page) : mem p s = false <-> ~ In p s.
Proof.
  rewrite <- mem_In. destruct (mem p s); split; congruence.
Qed.

Lemma len_nonneg {A : Type} (l : list A) : 0 <= len l.
Proof.
  unfold len, Qle; simpl. lia.
Qed.

Lemma len_cons_pos {A : Type} (x : A) (l : list A) : 0 < len (x :: l).
Proof.
  unfold len, Qlt; simpl. lia.
Qed.

Lemma len_pos {A : Type} (l : list A) : l <> [] -> 0 < len l.
Proof.
  destruct l as [|x l]; [congruence | intros _; apply len_cons_pos].
Qed.

Lemma len_zero_nil {A : Type} (l : list A) : Qeq_bool (len l) 0 = true -> l = [].
Proof.
  intros H. apply Qeq_bool_iff in H. destruct l as [|x l]; [reflexivity|].
  pose proof (len_cons_pos x l) as Hp. rewrite H in Hp.
  exfalso. apply (Qlt_irrefl 0 Hp).
Qed.

Lemma truediv_ok (a b : Q) : ~ b == 0 -> truediv a b = Ret (a / b).
Proof.
  intros Hb. unfold truediv.
  destruct (Qeq_bool b 0) eqn:E; [|reflexivity].
  apply Qeq_bool_iff in E. contradiction.
Qed.

Lemma truediv_len {A : Type} (a : Q) (l : list A) :
  l <> [] -> truediv a (len l) = Ret (a / len l).
Proof.
  intros Hl. apply truediv_ok. intros E.
  pose proof (len_pos l Hl) as Hp. rewrite E in Hp.
  apply (Qlt_irrefl 0 Hp).
Qed.

Lemma In_nonempty {A : Type} (x : A) (l : list A) : In x l -> l <> [].
Proof.
  destruct l; simpl; [tauto | congruence].
Qed.

(** ** Loops with an invariant *)

Lemma foreach_prefix_inv {A S : Type} (P : list A -> S -> Prop)
      (body : A -> S -> outcome S) (xs : list A) :
  forall (pre : list A) (s : S),
    P pre s ->
    (forall pre' x suf s0,
        pre ++ xs = pre' ++ x :: suf -> P pre' s0 ->
        exists s1, body x s0 = Ret s1 /\ P (pre' ++ [x]) s1) ->
    exists s', foreach xs s body = Ret s' /\ P (pre ++ xs) s'.
Proof.
  induction xs as [|x xs IH]; intros pre s HP Hstep; simpl.
  - exists s. rewrite app_nil_r. auto.
  - destruct (Hstep pre x xs s eq_refl HP) as [s1 [E1 HP1]].
    rewrite E1; simpl.
    destruct (IH (pre ++ [x]) s1 HP1) as [s' [E' HP']].
    + intros pre' y suf s0 Heq. apply (Hstep pre' y suf s0).
      rewrite <- Heq, <- app_assoc. reflexivity.
    + exists s'. split; [exact E'|].
      rewrite <- app_assoc in HP'. exact HP'.
Qed.

Lemma foreach_inv {A S : Type} (P : S -> Prop)
      (body : A -> S -> outcome S) (xs : list A) (s : S) :
  P s ->
  (forall x s0, In x xs -> P s0 -> exists s1, body x s0 = Ret s1 /\ P s1) ->
  exists s', foreach xs s body = Ret s' /\ P s'.
Proof.
  intros HP Hstep.
  destruct (foreach_prefix_inv (fun _ => P) body xs [] s HP) as [s' [E H]].
  - intros pre' x suf s0 Heq HP0. apply Hstep; [|exact HP0].
    simpl in Heq. rewrite Heq. apply in_or_app. right. left. reflexivity.
  - exists s'. auto.
Qed.

(** ** Dictionaries *)

Section DictFacts.
Context {V : Type}.
Implicit Types (d : Dict.t V) (k : page) (v : V).

Lemma get_In_keys d k : In k (Dict.keys d) <-> exists v, Dict.get d k = Some v.
Proof.
  induction d as [|[k' v'] d IH]; simpl.
  - split; [tauto | intros [v H]; discriminate].
  - destruct (String.eqb_spec k k') as [->|Hne].
    + split; [intros _; eauto | auto].
    + rewrite <- IH. split; [intros [H|H]; [congruence|exact H] | auto].
Qed.

Lemma get_None_keys d k : Dict.get d k = None <-> ~ In k (Dict.keys d).
Proof.
  rewrite get_In_keys. destruct (Dict.get d k) as [v|].
  - split; [discriminate | intros H; exfalso; apply H; eauto].
  - split; [intros _ [v H]; discriminate | reflexivity].
Qed.

Lemma get_In d k v : Dict.get d k = Some v -> In (k, v) d.
Proof.
  induction d as [|[k' v'] d IH]; simpl; [discriminate|].
  destruct (String.eqb_spec k k') as [->|Hne].
  - intros [= ->]. left; reflexivity.
  - intros H. right. apply IH, H.
Qed.

Lemma getitem_In_keys d k :
  In k (Dict.keys d) -> exists v, Dict.getitem d k = Ret v /\ Dict.get d k = Some v.
Proof.
  intros H. apply get_In_keys in H. destruct H as [v Hv].
  exists v. unfold Dict.getitem. rewrite Hv. auto.
Qed.

Lemma get_set_same d k v : Dict.get (Dict.set d k v) k = Some v.
Proof.
  induction d as [|[k' v'] d IH]; simpl.
  - rewrite String.eqb_refl. reflexivity.
  - destruct (String.eqb_spec k k') as [->|Hne]; simpl.
    + rewrite String.eqb_refl. reflexivity.
    + destruct (String.eqb_spec k k'); [congruence | exact IH].
Qed.

Lemma get_set_other d k k' v :
  k' <> k -> Dict.get (Dict.set d k v) k' = Dict.get d k'.
Proof.
  intros Hne. induction d as [|[k0 v0] d IH]; simpl.
  - destruct (String.eqb_spec k' k); [congruence | reflexivity].
  - destruct (String.eqb_spec k k0) as [->|Hne0]; simpl.
    + destruct (String.eqb_spec k' k0); [congruence | reflexivity].
    + rewrite IH. reflexivity.
Qed.

Lemma keys_set_present d k v :
  In k (Dict.keys d) -> Dict.keys (Dict.set d k v) = Dict.keys d.
Proof.
  induction d as [|[k' v'] d IH]; simpl; [tauto|].
  destruct (String.eqb_spec k k') as [->|Hne]; simpl; [reflexivity|].
  intros [H|H]; [congruence|]. f_equal. apply IH, H.
Qed.

Lemma set_absent d k v :
  ~ In k (Dict.keys d) -> Dict.set d k v = d ++ [(k, v)].
Proof.
  induction d as [|[k' v'] d IH]; simpl; [reflexivity|].
  intros H. destruct (String.eqb_spec k k') as [->|Hne].
  - exfalso. apply H. left; reflexivity.
  - f_equal. apply IH. intros Hin. apply H. right; exact Hin.
Qed.

Lemma keys_set_In d k v k' :
  In k' (Dict.keys (Dict.set d k v)) <-> k' = k \/ In k' (Dict.keys d).
Proof.
  destruct (in_dec string_dec k (Dict.keys d)) as [Hin|Hnin].
  - rewrite keys_set_present by exact Hin.
    split; [auto | intros [->|H]; auto].
  - rewrite set_absent by exact Hnin. unfold Dict.keys.
    rewrite map_app, in_app_iff; simpl.
    split; [intros [H|[H|[]]]; auto | intros [->|H]; auto].
Qed.

Lemma set_In_values d k v (P : V -> Prop) :
  Forall P (Dict.values d) -> P v -> Forall P (Dict.values (Dict.set d k v)).
Proof.
  induction d as [|[k' v'] d IH]; simpl; intros Hd Hv.
  - constructor; [exact Hv | constructor].
  - inversion Hd as [|? ? Hv' Hd']; subst.
    destruct (String.eqb k k'); simpl; constructor; auto.
Qed.

Lemma set_dict_ok d k v : dict_ok d -> dict_ok (Dict.set d k v).
Proof.
  unfold dict_ok. intros Hd.
  destruct (in_dec string_dec k (Dict.keys d)) as [Hin|Hnin].
  - rewrite keys_set_present by exact Hin. exact Hd.
  - rewrite set_absent by exact Hnin. unfold Dict.keys.
    rewrite map_app; simpl.
    apply NoDup_app; [exact Hd | repeat constructor; simpl; tauto |].
    intros x Hx [<-|[]]. exact (Hnin Hx).
Qed.

Lemma set_app_head (pre : Dict.t V) k v0 v (suf : Dict.t V) :
  ~ In k (Dict.keys pre) ->
  Dict.set (pre ++ (k, v0) :: suf) k v = pre ++ (k, v) :: suf.
Proof.
  induction pre as [|[k' v'] pre IH]; simpl; intros H.
  - rewrite String.eqb_refl. reflexivity.
  - destruct (String.eqb_spec k k') as [->|Hne].
    + exfalso. apply H. left; reflexivity.
    + f_equal. apply IH. intros Hin. apply H. right; exact Hin.
Qed.

Lemma get_app_head (pre : Dict.t V) k v0 (suf : Dict.t V) :
  ~ In k (Dict.keys pre) -> Dict.get (pre ++ (k, v0) :: suf) k = Some v0.
Proof.
  induction pre as [|[k' v'] pre IH]; simpl; intros H.
  - rewrite String.eqb_refl. reflexivity.
  - destruct (String.eqb_spec k k') as [->|Hne].
    + exfalso. apply H. left; reflexivity.
    + apply IH. intros Hin. apply H. right; exact Hin.
Qed.

End DictFacts.

(** * transition_model *)

Lemma get_In_values (d : Distribution) (k : page) (v : Q) :
  Dict.get d k = Some v -> In v (Dict.values d).
Proof.
  intros H. apply get_In in H. unfold Dict.values.
  change v with (snd (k, v)). apply in_map, H.
Qed.

Lemma keys_nonempty {V : Type} (d : Dict.t V) (k : page) :
  In k (Dict.keys d) -> d <> [].
Proof.
  destruct d; simpl; [tauto | congruence].
Qed.

Lemma Qdiv_pos (a b : Q) : 0 < a -> 0 < b -> 0 < a / b.
Proof.
  intros Ha Hb. apply Qlt_shift_div_l; [exact Hb|].
  rewrite Qmult_0_l. exact Ha.
Qed.

(** The comparison on line 65 is between a set and the dict literal. *)
Lemma links_never_equal_dict (links : list page) :
  py_eq (PySet links) (PyDict []) = false.
Proof. reflexivity. Qed.

Lemma transition_model_post (corpus : Corpus) (page0 : page) (damping_factor : Q) :
  In page0 (Dict.keys corpus) ->
  exists links dist,
    Dict.get corpus page0 = Some links
    /\ transition_model corpus page0 damping_factor = Ret (TMDist dist)
    /\ tm_post corpus links damping_factor dist.
Proof.
  intros Hpage.
  destruct (getitem_In_keys corpus page0 Hpage) as [links [Eg Eget]].
  pose proof (keys_nonempty corpus page0 Hpage) as Hne.
  exists links. unfold transition_model. rewrite Eg; cbn [bind].
  rewrite links_never_equal_dict.
  (* the loop of lines 70-71 *)
  destruct (foreach_prefix_inv
    (fun pre (dist : Distribution) =>
       (forall k, In k (Dict.keys dist) <-> In k pre)
       /\ dict_ok dist
       /\ (0 < damping_factor -> Forall (fun v => 0 < v) (Dict.values dist)))
    (fun page distribution =>
       v <- truediv damping_factor (len links) ;;
       Ret (Dict.set distribution page v))
    links [] []) as [dist1 [E1 [K1 [N1 P1]]]].
  { split; [intros k; simpl; tauto|]. split; [constructor|].
    intros _. constructor. }
  { intros pre x suf s0 Heq [K [N P]].
    assert (Hl : links <> []).
    { simpl in Heq. rewrite Heq. destruct pre; discriminate. }
    rewrite (truediv_len _ _ Hl); cbn [bind].
    eexists; split; [reflexivity|]. split; [|split].
    - intros k. rewrite keys_set_In, in_app_iff, K. simpl.
      split; [intros [->|H]; auto | intros [H|[->|[]]]; auto].
    - apply set_dict_ok, N.
    - intros Hd. apply set_In_values; [apply P, Hd|].
      apply Qdiv_pos; [exact Hd | apply len_pos, Hl]. }
  simpl in E1, K1. rewrite E1; cbn [bind].
  (* the loop of lines 73-77 *)
  destruct (foreach_prefix_inv
    (fun pre (dist : Distribution) =>
       (forall k, In k (Dict.keys dist) <-> In k links \/ In k pre)
       /\ dict_ok dist
       /\ (0 < damping_factor -> damping_factor < 1 ->
           Forall (fun v => 0 < v) (Dict.values dist)))
    (fun page distribution =>
       if mem page links then
         old <- Dict.getitem distribution page ;;
         v <- truediv (1 - damping_factor) (len corpus) ;;
         Ret (Dict.set distribution page (old + v))
       else
         v <- truediv (1 - damping_factor) (len corpus) ;;
         Ret (Dict.set distribution page v))
    (Dict.keys corpus) [] dist1) as [dist2 [E2 [K2 [N2 P2]]]].
  { split; [intros k; rewrite K1; simpl; tauto|]. split; [exact N1|].
    intros Hd _. apply P1, Hd. }
  { intros pre x suf s0 Heq [K [N P]].
    assert (Hpos : 0 < damping_factor -> damping_factor < 1 ->
                   0 < (1 - damping_factor) / len corpus).
    { intros _ Hd1. apply Qdiv_pos; [lra | apply len_pos, Hne]. }
    destruct (mem x links) eqn:Em.
    - apply mem_In in Em.
      destruct (getitem_In_keys s0 x) as [old [Eo Eold]].
      { apply K. left; exact Em. }
      rewrite Eo; cbn [bind]. rewrite (truediv_len _ _ Hne); cbn [bind].
      eexists; split; [reflexivity|]. split; [|split].
      + intros k. rewrite keys_set_In, in_app_iff, K. simpl.
        split; [intros [->|[H|H]]; auto | intros [H|[H|[->|[]]]]; auto].
      + apply set_dict_ok, N.
      + intros Hd0 Hd1. apply set_In_values; [apply P; assumption|].
        pose proof (P Hd0 Hd1) as Hall. rewrite Forall_forall in Hall.
        pose proof (Hall old (get_In_values _ _ _ Eold)).
        pose proof (Hpos Hd0 Hd1). lra.
    - rewrite (truediv_len _ _ Hne); cbn [bind].
      eexists; split; [reflexivity|]. split; [|split].
      + intros k. rewrite keys_set_In, in_app_iff, K. simpl.
        split; [intros [->|[H|H]]; auto | intros [H|[H|[->|[]]]]; auto].
      + apply set_dict_ok, N.
      + intros Hd0 Hd1. apply set_In_values; [apply P; assumption|].
        apply Hpos; assumption. }
  simpl in E2, K2. rewrite E2; cbn [bind].
  exists dist2. split; [exact Eget|]. split; [reflexivity|].
  split; [exact K2|]. split; [exact N2 | exact P2].
Qed.

(** C9: for every corpus and every page that is one of its keys,
    [transition_model] returns normally (it returns the distribution of
    line 79): the lookup on line 61 succeeds, the division by
    [len(links)] on line 71 only runs inside the loop over [links], which
    is then non-empty, [len(corpus)] is positive, and the [+=] of line 75
    only reads keys that line 71 has written. *)
Theorem transition_model_returns_normally
        (corpus : Corpus) (page0 : page) (damping_factor : Q) :
  In page0 (Dict.keys corpus) ->
  exists distribution,
    transition_model corpus page0 damping_factor = Ret (TMDist distribution).
Proof.
  intros Hpage.
  destruct (transition_model_post corpus page0 damping_factor Hpage)
    as [links [dist [_ [E _]]]].
  exists dist. exact E.
Qed.

Lemma transition_model_returns_normally_witness :
  In "b"%string (Dict.keys corpus_chain)
  /\ exists distribution,
      transition_model corpus_chain "b"%string (17 # 20) = Ret (TMDist distribution).
Proof.
  split.
  - simpl. right. left. reflexivity.
  - apply (transition_model_returns_normally corpus_chain "b"%string (17 # 20)).
    simpl. right. left. reflexivity.
Defined.

(** C2 (the code departs from the claim): on the one-page corpus
    [{"a": set()}] the page "a" has no links, and [transition_model]
    gives it (1 - 0.85)/1 = 0.15 rather than the uniform 1/|V| = 1,
    because the test [links == {}] of line 65 is false for a set. *)
Theorem transition_model_dangling_not_uniform :
  exists v,
    transition_model corpus_single "a"%string (17 # 20)
    = Ret (TMDist [("a"%string, v)])
    /\ v == 3 # 20
    /\ ~ v == 1 / len corpus_single.
Proof.
  eexists. split; [vm_compute; reflexivity|].
  split; [reflexivity | discriminate].
Qed.

(** C3 (the code departs from the claim): on [{"a": {"b"}, "b": set()}]
    the distribution returned for the page "b", which has no links, is
    positive everywhere but sums to 1 - 0.85 = 0.15, which is not within
    1e-9 of 1. *)
Theorem transition_model_dangling_sum :
  exists dist,
    transition_model corpus_chain "b"%string (17 # 20) = Ret (TMDist dist)
    /\ Forall (fun v => 0 < v) (Dict.values dist)
    /\ total dist == 3 # 20
    /\ ~ Qabs (total dist - 1) <= 1 # 1000000000.
Proof.
  eexists. split; [vm_compute; reflexivity|].
  split; [repeat constructor|].
  split; [reflexivity|].
  vm_compute. intros H. apply H. reflexivity.
Qed.

(** * The random module *)

Lemma bisect_right_bounds (rounds : nat) (a : list Q) (x : Q) :
  forall lo hi : nat,
    (lo <= hi)%nat ->
    (lo <= bisect_right rounds a x lo hi <= hi)%nat.
Proof.
  induction rounds as [|rounds IH]; intros lo hi Hle; cbn [bisect_right]; [lia|].
  destruct (Nat.ltb_spec lo hi) as [Hlt|Hge]; [|lia].
  assert (Hmid : (lo <= (lo + hi) / 2 < hi)%nat).
  { split.
    - apply Nat.div_le_lower_bound; lia.
    - apply Nat.Div0.div_lt_upper_bound; lia. }
  destruct (negb (Qle_bool (nth ((lo + hi) / 2) a 0) x)).
  - specialize (IH lo ((lo + hi) / 2)%nat). lia.
  - specialize (IH ((lo + hi) / 2 + 1)%nat hi). lia.
Qed.

(** The rounds given to the search are never used up: more of them do not
    change the index found. *)
Lemma bisect_right_rounds (rounds : nat) (a : list Q) (x : Q) :
  forall (extra lo hi : nat),
    (hi - lo <= rounds)%nat ->
    bisect_right (rounds + extra) a x lo hi = bisect_right rounds a x lo hi.
Proof.
  induction rounds as [|rounds IH]; intros extra lo hi H.
  - destruct extra as [|extra]; [reflexivity|].
    cbn [Nat.add bisect_right].
    destruct (Nat.ltb_spec lo hi); [lia | reflexivity].
  - cbn [Nat.add bisect_right].
    destruct (Nat.ltb_spec lo hi) as [Hlt|Hge]; [|reflexivity].
    assert (Hmid : (lo <= (lo + hi) / 2 < hi)%nat).
    { split.
      - apply Nat.div_le_lower_bound; lia.
      - apply Nat.Div0.div_lt_upper_bound; lia. }
    assert (Hhalf : (2 * ((lo + hi) / 2) <= lo + hi)%nat)
      by (apply Nat.Div0.mul_div_le).
    assert (Hhalf' : (lo + hi < 2 * ((lo + hi) / 2) + 2)%nat).
    { pose proof (Nat.div_mod_eq (lo + hi) 2).
      pose proof (Nat.mod_upper_bound (lo + hi) 2). lia. }
    destruct (negb (Qle_bool (nth ((lo + hi) / 2) a 0) x)); apply IH; lia.
Qed.

Lemma accumulate_from_length (t : Q) (ws : list Q) :
  List.length (accumulate_from t ws) = List.length ws.
Proof.
  revert t. induction ws as [|w ws IH]; intros t; simpl; [reflexivity|].
  rewrite IH. reflexivity.
Qed.

Lemma accumulate_length (ws : list Q) :
  List.length (accumulate ws) = List.length ws.
Proof.
  destruct ws as [|w ws]; simpl; [reflexivity|].
  rewrite accumulate_from_length. reflexivity.
Qed.

Lemma accumulate_from_pos (t : Q) (ws : list Q) :
  0 <= t -> Forall (fun v => 0 < v) ws ->
  Forall (fun v => 0 < v) (accumulate_from t ws).
Proof.
  revert t. induction ws as [|w ws IH]; intros t Ht Hws; simpl; [constructor|].
  inversion Hws as [|? ? Hw Hws']; subst.
  constructor; [lra | apply IH; [lra | exact Hws']].
Qed.

Lemma accumulate_pos (ws : list Q) :
  Forall (fun v => 0 < v) ws -> Forall (fun v => 0 < v) (accumulate ws).
Proof.
  destruct ws as [|w ws]; simpl; intros H; [constructor|].
  inversion H as [|? ? Hw Hws]; subst.
  constructor; [exact Hw | apply accumulate_from_pos; [lra | exact Hws]].
Qed.

(** With positive weights, [random.choices] returns a member of the
    population. *)
Lemma random_choices_total {A : Type} (population : list A) (weights : list Q)
      (g : rng) :
  population <> [] ->
  List.length weights = List.length population ->
  Forall (fun v => 0 < v) weights ->
  exists x g', random_choices population weights g = Ret (x, g')
               /\ In x population.
Proof.
  intros Hne Hlen Hpos. unfold random_choices.
  rewrite accumulate_length, Hlen, Nat.eqb_refl; simpl negb; cbv iota.
  pose proof (accumulate_pos weights Hpos) as Hacc.
  destruct (rev (accumulate weights)) as [|tot rest] eqn:Er.
  - exfalso. apply (f_equal (@List.length Q)) in Er.
    rewrite length_rev, accumulate_length, Hlen in Er.
    destruct population; [congruence | discriminate].
  - assert (Htot : 0 < tot).
    { rewrite Forall_forall in Hacc. apply Hacc, in_rev.
      rewrite Er. left; reflexivity. }
    destruct (Qle_bool tot 0) eqn:Ele.
    { apply Qle_bool_iff in Ele. lra. }
    destruct (random g) as [u g'].
    set (i := bisect_right _ _ _ _ _).
    assert (Hi : (i < List.length population)%nat).
    { pose proof (bisect_right_bounds (S (List.length population))
                    (accumulate weights) (u * tot) 0
                    (List.length population - 1) (Nat.le_0_l _)) as Hb.
      fold i in Hb. destruct population; [congruence | simpl in *; lia]. }
    destruct (nth_error population i) as [x|] eqn:En.
    + exists x, g'. split; [reflexivity | eapply nth_error_In, En].
    + apply nth_error_None in En. lia.
Qed.

Lemma random_choice_total {A : Type} (seq : list A) (g : rng) :
  seq <> [] ->
  exists x g', random_choice seq g = Ret (x, g') /\ In x seq.
Proof.
  intros Hne. unfold random_choice.
  destruct seq as [|x0 seq]; [congruence|].
  unfold randbelow. destruct (next_raw g) as [k g'].
  eexists _, g'. split; [reflexivity|].
  apply nth_In.
  assert (H : (k mod N.of_nat (List.length (x0 :: seq)) <
               N.of_nat (List.length (x0 :: seq)))%N).
  { apply N.mod_lt. simpl. lia. }
  lia.
Qed.

(** * sample_pagerank *)

(** ** The tally *)

Lemma total_app (d e : Distribution) : total (d ++ e) == total d + total e.
Proof.
  unfold total, Dict.values. induction d as [|[k v] d IH]; simpl.
  - lra.
  - rewrite IH. lra.
Qed.

Lemma total_set_present (d : Distribution) (k : page) (c v : Q) :
  Dict.get d k = Some c -> total (Dict.set d k v) == total d - c + v.
Proof.
  unfold total, Dict.values.
  induction d as [|[k' v'] d IH]; simpl; [discriminate|].
  destruct (String.eqb_spec k k') as [->|Hne]; simpl.
  - intros [= ->]. lra.
  - intros H. rewrite (IH H). lra.
Qed.

Lemma total_set_absent (d : Distribution) (k : page) (v : Q) :
  Dict.get d k = None -> total (Dict.set d k v) == total d + v.
Proof.
  intros H. apply get_None_keys in H. rewrite (set_absent d k v H).
  rewrite total_app. unfold total; simpl. lra.
Qed.

Lemma record_visit_keys (pagerank : Distribution) (p k : page) :
  In k (Dict.keys (record_visit pagerank p)) <-> k = p \/ In k (Dict.keys pagerank).
Proof.
  unfold record_visit. destruct (Dict.get pagerank p); apply keys_set_In.
Qed.

Lemma record_visit_ok (pagerank : Distribution) (p : page) :
  dict_ok pagerank -> dict_ok (record_visit pagerank p).
Proof.
  unfold record_visit. destruct (Dict.get pagerank p); apply set_dict_ok.
Qed.

Lemma record_visit_total (pagerank : Distribution) (p : page) :
  total (record_visit pagerank p) == total pagerank + 1.
Proof.
  unfold record_visit. destruct (Dict.get pagerank p) as [c|] eqn:E.
  - rewrite (total_set_present _ _ _ _ E). lra.
  - apply total_set_absent, E.
Qed.

Lemma record_visit_ge1 (pagerank : Distribution) (p : page) :
  Forall (fun v => 1 <= v) (Dict.values pagerank) ->
  Forall (fun v => 1 <= v) (Dict.values (record_visit pagerank p)).
Proof.
  intros H. unfold record_visit. destruct (Dict.get pagerank p) as [c|] eqn:E.
  - apply set_In_values; [exact H|].
    rewrite Forall_forall in H. pose proof (H c (get_In_values _ _ _ E)). lra.
  - apply set_In_values; [exact H | lra].
Qed.

(** The tally after a sequence of recorded visits. *)
Lemma tally_keys (vs : list page) :
  forall (pagerank : Distribution) (k : page),
    In k (Dict.keys (fold_left record_visit vs pagerank))
    <-> In k vs \/ In k (Dict.keys pagerank).
Proof.
  induction vs as [|p vs IH]; intros pagerank k; simpl; [tauto|].
  rewrite IH, record_visit_keys.
  split; [intros [H|[->|H]]; auto | intros [[->|H]|H]; auto].
Qed.

Lemma tally_ok (vs : list page) :
  forall pagerank : Distribution,
    dict_ok pagerank -> dict_ok (fold_left record_visit vs pagerank).
Proof.
  induction vs as [|p vs IH]; intros pagerank H; simpl; [exact H|].
  apply IH, record_visit_ok, H.
Qed.

Lemma tally_total (vs : list page) :
  forall pagerank : Distribution,
    total (fold_left record_visit vs pagerank) == total pagerank + len vs.
Proof.
  induction vs as [|p vs IH]; intros pagerank; simpl.
  - unfold len; simpl. change (inject_Z 0) with 0. lra.
  - rewrite IH, record_visit_total. unfold len.
    change (List.length (p :: vs)) with (S (List.length vs)).
    rewrite Nat2Z.inj_succ, <- Z.add_1_r, inject_Z_plus. change (inject_Z 1) with 1. lra.
Qed.

Lemma tally_ge1 (vs : list page) :
  forall pagerank : Distribution,
    Forall (fun v => 1 <= v) (Dict.values pagerank) ->
    Forall (fun v => 1 <= v) (Dict.values (fold_left record_visit vs pagerank)).
Proof.
  induction vs as [|p vs IH]; intros pagerank H; simpl; [exact H|].
  apply IH, record_visit_ge1, H.
Qed.

(** ** A loop that rewrites every value of a dict in place *)

Lemma foreach_update_from (f : Q -> Q) (g : Q -> outcome Q) (suf : Distribution) :
  forall pre : Distribution,
    (forall v, In v (Dict.values suf) -> g v = Ret (f v)) ->
    NoDup (Dict.keys suf) ->
    (forall k, In k (Dict.keys pre) -> ~ In k (Dict.keys suf)) ->
    foreach (Dict.keys suf) (pre ++ suf)
      (fun k d => v <- Dict.getitem d k ;; q <- g v ;; Ret (Dict.set d k q))
    = Ret (pre ++ map (fun kv => (fst kv, f (snd kv))) suf).
Proof.
  induction suf as [|[k v] suf IH]; intros pre Hg Hnd Hdisj; simpl.
  - reflexivity.
  - assert (Hk : ~ In k (Dict.keys pre)).
    { intros Hin. apply (Hdisj k Hin). left; reflexivity. }
    unfold Dict.getitem. rewrite (get_app_head pre k v suf Hk); cbn [bind].
    rewrite (Hg v) by (left; reflexivity); cbn [bind].
    rewrite (set_app_head pre k v (f v) suf Hk).
    change (pre ++ (k, f v) :: suf) with (pre ++ [(k, f v)] ++ suf).
    rewrite app_assoc.
    inversion Hnd as [|? ? Hnk Hnd']; subst.
    rewrite IH.
    + rewrite <- app_assoc. reflexivity.
    + intros w Hw. apply Hg. right; exact Hw.
    + exact Hnd'.
    + intros k0 Hin. unfold Dict.keys in Hin.
      rewrite map_app, in_app_iff in Hin. simpl in Hin.
      destruct Hin as [Hin|[<-|[]]].
      * intros Hs. apply (Hdisj k0 Hin). right; exact Hs.
      * exact Hnk.
Qed.

Lemma foreach_update_map (f : Q -> Q) (g : Q -> outcome Q) (d : Distribution) :
  (forall v, In v (Dict.values d) -> g v = Ret (f v)) ->
  dict_ok d ->
  foreach (Dict.keys d) d
    (fun k d => v <- Dict.getitem d k ;; q <- g v ;; Ret (Dict.set d k q))
  = Ret (map (fun kv => (fst kv, f (snd kv))) d).
Proof.
  intros Hg Hd.
  apply (foreach_update_from f g d [] Hg Hd).
  intros k [].
Qed.

Lemma keys_map_values (f : Q -> Q) (d : Distribution) :
  Dict.keys (map (fun kv => (fst kv, f (snd kv))) d) = Dict.keys d.
Proof.
  unfold Dict.keys. rewrite map_map. reflexivity.
Qed.

Lemma values_map_values (f : Q -> Q) (d : Distribution) :
  Dict.values (map (fun kv => (fst kv, f (snd kv))) d) = map f (Dict.values d).
Proof.
  unfold Dict.values. rewrite !map_map. reflexivity.
Qed.

Lemma total_scaled (c : Q) (d : Distribution) :
  total (map (fun kv => (fst kv, snd kv / c)) d) == total d / c.
Proof.
  unfold total. rewrite (values_map_values (fun v => v / c)).
  induction (Dict.values d) as [|v vs IH]; simpl.
  - unfold Qdiv. lra.
  - rewrite IH. unfold Qdiv. lra.
Qed.

(** ** The walk *)

Lemma sample_step_inv (corpus : Corpus) (damping_factor : Q)
      (page0 : page) (pagerank : Distribution) (g : rng) (st' : sample_state) :
  sample_step corpus damping_factor (page0, pagerank, g) = Ret st' ->
  exists page1 g1, st' = (page1, record_visit pagerank page1, g1).
Proof.
  unfold sample_step.
  destruct (transition_model corpus page0 damping_factor) as [[prob|c]| |];
    cbn [bind]; try discriminate.
  destruct (random_choices (Dict.keys prob) (Dict.values prob) g)
    as [[page1 g1]| |]; cbn [bind]; try discriminate.
  intros [= <-]. exists page1, g1. reflexivity.
Qed.

Lemma sample_step_total (corpus : Corpus) (damping_factor : Q)
      (page0 : page) (pagerank : Distribution) (g : rng) :
  links_closed corpus ->
  0 < damping_factor -> damping_factor < 1 ->
  In page0 (Dict.keys corpus) ->
  exists page1 g1,
    sample_step corpus damping_factor (page0, pagerank, g)
    = Ret (page1, record_visit pagerank page1, g1)
    /\ In page1 (Dict.keys corpus).
Proof.
  intros Hclosed Hd0 Hd1 Hpage.
  destruct (transition_model_post corpus page0 damping_factor Hpage)
    as [links [dist [Eget [Etm [Hkeys [_ Hpos]]]]]].
  unfold sample_step. rewrite Etm; cbn [bind].
  destruct (random_choices_total (Dict.keys dist) (Dict.values dist) g)
    as [page1 [g1 [Ech Hin]]].
  - apply (In_nonempty page0). apply Hkeys. right; exact Hpage.
  - unfold Dict.keys, Dict.values. rewrite !length_map. reflexivity.
  - apply Hpos; assumption.
  - rewrite Ech; cbn [bind]. exists page1, g1. split; [reflexivity|].
    apply Hkeys in Hin. destruct Hin as [Hin|Hin]; [|exact Hin].
    apply (Hclosed page0 links (get_In _ _ _ Eget)), Hin.
Qed.

Lemma sample_loop_visits (corpus : Corpus) (damping_factor : Q) (k : nat) :
  forall (st st' : sample_state),
    sample_loop k corpus damping_factor st = Ret st' ->
    exists vs,
      visits_from k corpus damping_factor st = Ret vs
      /\ snd (fst st') = fold_left record_visit vs (snd (fst st))
      /\ List.length vs = k.
Proof.
  induction k as [|k IH]; intros st st' H; simpl in *.
  - injection H as <-. exists []. auto.
  - apply bind_ret_inv in H. destruct H as [st1 [E1 E2]].
    rewrite E1; cbn [bind].
    destruct (IH st1 st' E2) as [vs [Ev [Et El]]].
    rewrite Ev; cbn [bind].
    exists (fst (fst st1) :: vs). split; [reflexivity|].
    destruct st as [[page0 pagerank] g].
    destruct (sample_step_inv _ _ _ _ _ _ E1) as [page1 [g1 ->]].
    simpl in *. rewrite Et, El. auto.
Qed.

Lemma sample_loop_total (corpus : Corpus) (damping_factor : Q) (k : nat) :
  links_closed corpus ->
  0 < damping_factor -> damping_factor < 1 ->
  forall (page0 : page) (pagerank : Distribution) (g : rng),
    In page0 (Dict.keys corpus) ->
    exists st', sample_loop k corpus damping_factor (page0, pagerank, g) = Ret st'.
Proof.
  intros Hclosed Hd0 Hd1.
  induction k as [|k IH]; intros page0 pagerank g Hpage; cbn [sample_loop].
  - eexists; reflexivity.
  - destruct (sample_step_total corpus damping_factor page0 pagerank g
                Hclosed Hd0 Hd1 Hpage) as [page1 [g1 [E Hin]]].
    rewrite E; cbn [bind]. apply IH, Hin.
Qed.

Lemma tally_nil_values (vs : list page) (v : Q) :
  In v (Dict.values (fold_left record_visit vs [])) -> vs <> [].
Proof.
  destruct vs; simpl; [tauto | congruence].
Qed.

Lemma inject_Z_nonzero (n : Z) : (n <> 0)%Z -> ~ inject_Z n == 0.
Proof.
  intros Hn E. apply Hn. unfold Qeq in E. simpl in E. lia.
Qed.

(** The result of [sample_pagerank] is the tally of the drawn pages, every
    count divided by [n]. *)
Lemma sample_pagerank_spec (corpus : Corpus) (damping_factor : Q) (n : Z)
      (g : rng) (r : Distribution) :
  sample_pagerank corpus damping_factor n g = Ret r ->
  exists vs,
    visits corpus damping_factor n g = Ret vs
    /\ List.length vs = Z.to_nat (n - 1)
    /\ r = map (fun kv => (fst kv, snd kv / inject_Z n))
               (fold_left record_visit vs []).
Proof.
  unfold sample_pagerank, visits. intros H.
  apply bind_ret_inv in H. destruct H as [[page0 g0] [E0 H]].
  rewrite E0; cbn [bind].
  apply bind_ret_inv in H. destruct H as [[[page1 pagerank] g1] [E1 H]].
  destruct (sample_loop_visits _ _ _ _ _ E1) as [vs [Ev [Et El]]].
  simpl in Et. subst pagerank.
  exists vs. split; [exact Ev|]. split; [exact El|].
  pose proof (foreach_update_map (fun v => v / inject_Z n)
                (fun c => truediv c (inject_Z n))
                (fold_left record_visit vs [])) as Hmap.
  cbv beta in Hmap. rewrite Hmap in H.
  - injection H as <-. reflexivity.
  - intros v Hv. apply truediv_ok, inject_Z_nonzero.
    apply tally_nil_values in Hv.
    destruct vs; [congruence | simpl in El; lia].
  - apply tally_ok. constructor.
Qed.

Lemma sample_pagerank_returns (corpus : Corpus) (damping_factor : Q) (n : Z)
      (g : rng) :
  corpus <> [] -> links_closed corpus ->
  0 < damping_factor -> damping_factor < 1 ->
  exists r, sample_pagerank corpus damping_factor n g = Ret r.
Proof.
  intros Hne Hclosed Hd0 Hd1. unfold sample_pagerank.
  destruct (random_choice_total (Dict.keys corpus) g) as [page0 [g0 [E0 Hin]]].
  { destruct corpus; [congruence | discriminate]. }
  rewrite E0; cbn [bind].
  destruct (sample_loop_total corpus damping_factor (Z.to_nat (n - 1))
              Hclosed Hd0 Hd1 page0 [] g0 Hin) as [[[page1 pagerank] g1] E1].
  rewrite E1; cbn [bind].
  destruct (sample_loop_visits _ _ _ _ _ E1) as [vs [Ev [Et El]]].
  simpl in Et. subst pagerank.
  pose proof (foreach_update_map (fun v => v / inject_Z n)
                (fun c => truediv c (inject_Z n))
                (fold_left record_visit vs [])) as Hmap.
  cbv beta in Hmap. rewrite Hmap.
  - eexists; reflexivity.
  - intros v Hv. apply truediv_ok, inject_Z_nonzero.
    apply tally_nil_values in Hv.
    destruct vs; [congruence | simpl in El; lia].
  - apply tally_ok. constructor.
Qed.

(** The mass of the result: [n - 1] visits are tallied and divided by [n]. *)
Lemma sample_pagerank_mass (corpus : Corpus) (damping_factor : Q) (n : Z)
      (g : rng) (r : Distribution) :
  (1 <= n)%Z ->
  sample_pagerank corpus damping_factor n g = Ret r ->
  total r == (inject_Z n - 1) / inject_Z n.
Proof.
  intros Hn H.
  destruct (sample_pagerank_spec _ _ _ _ _ H) as [vs [_ [El ->]]].
  rewrite total_scaled, tally_total. unfold len. rewrite El.
  rewrite Z2Nat.id by lia.
  unfold Z.sub. rewrite inject_Z_plus.
  change (total []) with 0. change (inject_Z (- (1))) with (- (1)).
  apply Qmult_comp; [lra | reflexivity].
Qed.

(** ** Claims about sample_pagerank *)

(** C1 (the code departs from the claim): on [{"a": {"b"}, "b": {"a"}}]
    with damping 0.85 and n = 2 the start page "b" is not recorded, one
    visit (to "a") is tallied and divided by 2, and the values of the
    result sum to 1/2, not to 1. *)
Theorem sample_pagerank_start_not_recorded :
  start_page corpus_pair [1%N; 0%N] = Ret "b"%string
  /\ visits corpus_pair (17 # 20) 2 [1%N; 0%N] = Ret ["a"%string]
  /\ exists r,
      sample_pagerank corpus_pair (17 # 20) 2 [1%N; 0%N] = Ret r
      /\ Dict.get r "b"%string = None
      /\ total r == 1 # 2
      /\ ~ total r == 1.
Proof.
  split; [vm_compute; reflexivity|].
  split; [vm_compute; reflexivity|].
  eexists. split; [vm_compute; reflexivity|].
  split; [reflexivity|]. split; [reflexivity | discriminate].
Qed.

(** C7 (the code departs from the claim): with n = 1 the loop of line 97
    does not run, nothing is tallied, and the result is the empty mapping
    for every non-empty corpus, damping factor and state of the random
    generator: the start page does not get probability 1. *)
Theorem sample_pagerank_one_sample_empty
        (item : page * list page) (corpus : Corpus) (damping_factor : Q)
        (g : rng) :
  sample_pagerank (item :: corpus) damping_factor 1 g = Ret []
  /\ exists p, start_page (item :: corpus) g = Ret p
               /\ Dict.get ([] : Distribution) p = None.
Proof.
  unfold sample_pagerank, start_page, random_choice.
  cbn [Dict.keys map].
  destruct (randbelow _ g) as [i g']; cbn [bind].
  split; [reflexivity|].
  eexists; split; reflexivity.
Qed.

(** C10: the mapping returned by [sample_pagerank] has exactly the pages
    drawn by the loop as keys, each with a positive value; a page that is
    never drawn is absent. The function does return on every non-empty
    corpus whose links stay inside it when the damping factor is in (0,1),
    and on [{"a": {"b"}, "b": {"a"}, "c": {"a"}}] a run that starts at "c"
    returns a mapping without the key "c". *)
Theorem sample_pagerank_keys_are_visits :
  (forall corpus damping_factor n g r,
      sample_pagerank corpus damping_factor n g = Ret r ->
      exists vs,
        visits corpus damping_factor n g = Ret vs
        /\ (forall p, In p (Dict.keys r) <-> In p vs)
        /\ Forall (fun v => 0 < v) (Dict.values r))
  /\ (forall corpus damping_factor n g,
         corpus <> [] -> links_closed corpus ->
         0 < damping_factor -> damping_factor < 1 ->
         exists r, sample_pagerank corpus damping_factor n g = Ret r)
  /\ (exists r,
         sample_pagerank corpus_three (17 # 20) 3 [2%N; 0%N; 0%N] = Ret r
         /\ In "c"%string (Dict.keys corpus_three)
         /\ ~ In "c"%string (Dict.keys r)).
Proof.
  split; [|split].
  - intros corpus damping_factor n g r H.
    destruct (sample_pagerank_spec _ _ _ _ _ H) as [vs [Ev [El ->]]].
    exists vs. split; [exact Ev|]. split.
    + intros p.
      rewrite (keys_map_values (fun v => v / inject_Z n)), tally_keys.
      simpl. tauto.
    + rewrite (values_map_values (fun v => v / inject_Z n)).
      apply Forall_map.
      pose proof (tally_ge1 vs [] (Forall_nil _)) as Hge.
      rewrite Forall_forall in Hge |- *.
      intros v Hv. pose proof (Hge v Hv) as H1.
      apply tally_nil_values in Hv.
      apply Qdiv_pos; [lra|].
      assert (Hn : (1 < n)%Z) by (destruct vs; [congruence | simpl in El; lia]).
      unfold Qlt; simpl. lia.
  - intros corpus damping_factor n g. apply sample_pagerank_returns.
  - eexists. split; [vm_compute; reflexivity|].
    split; [simpl; tauto|].
    simpl. intros [H|[H|[]]]; discriminate.
Qed.

Lemma sample_pagerank_keys_are_visits_witness :
  exists vs,
    visits corpus_pair (17 # 20) 4 [0%N; 0%N; 0%N; 0%N] = Ret vs
    /\ (forall p,
           In p (Dict.keys [("b"%string, 2 # 4); ("a"%string, 1 # 4)])
           <-> In p vs)
    /\ Forall (fun v => 0 < v)
              (Dict.values [("b"%string, 2 # 4); ("a"%string, 1 # 4)]).
Proof.
  apply (proj1 sample_pagerank_keys_are_visits
               corpus_pair (17 # 20) 4%Z [0%N; 0%N; 0%N; 0%N]).
  vm_compute. reflexivity.
Defined.

(** * iterate_pagerank *)

(** ** The loops compute what the pure definitions say *)

Lemma lookup_getitem (d : Distribution) (k : page) :
  In k (Dict.keys d) -> Dict.getitem d k = Ret (lookup d k).
Proof.
  intros H. destruct (getitem_In_keys d k H) as [v [E1 E2]].
  unfold lookup. rewrite E1, E2. reflexivity.
Qed.

Lemma keys_app {V : Type} (d e : Dict.t V) :
  Dict.keys (d ++ e) = Dict.keys d ++ Dict.keys e.
Proof. apply map_app. Qed.

Lemma inflow_from (corpus : Corpus) (d_copy : Distribution) (p : page)
      (items : Corpus) :
  forall prob : Q,
    corpus <> [] ->
    incl (Dict.keys items) (Dict.keys d_copy) ->
    foreach items prob
      (fun item prob =>
         let '(page_i, pages) := item in
         if mem p pages then
           r <- Dict.getitem d_copy page_i ;;
           q <- truediv r (len pages) ;;
           Ret (prob + q)
         else if Qeq_bool (len pages) 0 then
           q <- truediv 1 (len corpus) ;;
           Ret (prob + q)
         else Ret prob)
    = Ret (fold_left (inflow_step corpus d_copy p) items prob).
Proof.
  induction items as [|[page_i pages] items IH]; intros prob Hne Hincl.
  - reflexivity.
  - match goal with |- foreach _ _ ?b = _ => set (body := b) in * end.
    cbn [foreach fold_left]. unfold inflow_step at 2. cbn [fst snd].
    unfold body at 1; cbv beta iota.
    assert (Hrest : incl (Dict.keys items) (Dict.keys d_copy)).
    { intros k Hk. apply Hincl. right; exact Hk. }
    destruct (mem p pages) eqn:Em.
    + rewrite lookup_getitem by (apply Hincl; left; reflexivity).
      cbn [bind]. apply mem_In in Em.
      rewrite (truediv_len _ _ (In_nonempty _ _ Em)); cbn [bind].
      apply IH; assumption.
    + destruct (Qeq_bool (len pages) 0).
      * rewrite (truediv_len _ _ Hne); cbn [bind]. apply IH; assumption.
      * cbn [bind]. apply IH; assumption.
Qed.

Lemma inflow_computes (corpus : Corpus) (d_copy : Distribution) (p : page) :
  corpus <> [] ->
  incl (Dict.keys corpus) (Dict.keys d_copy) ->
  inflow corpus d_copy p = Ret (inflow_value corpus d_copy p).
Proof.
  intros Hne Hincl. unfold inflow, inflow_value.
  apply inflow_from; assumption.
Qed.

Lemma sweep_from (corpus : Corpus) (damping_factor : Q) (d_copy : Distribution)
      (suf : Corpus) :
  corpus <> [] ->
  incl (Dict.keys corpus) (Dict.keys d_copy) ->
  forall (dsuf dpre diffpre : Distribution),
    Dict.keys dsuf = Dict.keys suf ->
    NoDup (Dict.keys suf) ->
    incl (Dict.keys suf) (Dict.keys d_copy) ->
    (forall k, In k (Dict.keys dpre) -> ~ In k (Dict.keys suf)) ->
    (forall k, In k (Dict.keys diffpre) -> ~ In k (Dict.keys suf)) ->
    foreach (Dict.keys suf) (dpre ++ dsuf, diffpre)
      (fun page st =>
         let '(d, d_diff) := st in
         prob <- inflow corpus d_copy page ;;
         t <- truediv (1 - damping_factor) (len corpus) ;;
         let d := Dict.set d page (t + damping_factor * prob) in
         old <- Dict.getitem d_copy page ;;
         new <- Dict.getitem d page ;;
         Ret (d, Dict.set d_diff page (Qabs (old - new))))
    = Ret (dpre ++ map (fun kv => (fst kv,
                          new_rank corpus damping_factor d_copy (fst kv))) suf,
           diffpre ++ map (fun kv => (fst kv,
                          Qabs (lookup d_copy (fst kv)
                                - new_rank corpus damping_factor d_copy (fst kv))))
                          suf).
Proof.
  intros Hne Hcopy.
  induction suf as [|[k links] suf IH];
    intros dsuf dpre diffpre Hkeys Hnd Hin Hd Hdiff.
  - destruct dsuf; [|discriminate]. simpl. rewrite !app_nil_r. reflexivity.
  - destruct dsuf as [|[k' v] dsuf]; [discriminate|].
    simpl in Hkeys. injection Hkeys as -> Hkeys.
    match goal with |- foreach _ _ ?b = _ => set (body := b) in * end.
    change (Dict.keys ((k, links) :: suf)) with (k :: Dict.keys suf).
    cbn [foreach].
    unfold body at 1; cbv beta iota.
    rewrite (inflow_computes corpus d_copy k Hne Hcopy); cbn [bind].
    rewrite (truediv_len _ _ Hne); cbn [bind].
    assert (Hk : ~ In k (Dict.keys dpre)).
    { intros Hx. apply (Hd k Hx). left; reflexivity. }
    assert (Hk' : ~ In k (Dict.keys diffpre)).
    { intros Hx. apply (Hdiff k Hx). left; reflexivity. }
    rewrite (set_app_head dpre k v _ dsuf Hk).
    rewrite lookup_getitem by (apply Hin; left; reflexivity).
    cbn [bind]. unfold Dict.getitem at 1.
    rewrite (get_app_head dpre k _ dsuf Hk); cbn [bind].
    rewrite (set_absent diffpre k _ Hk').
    fold (new_rank corpus damping_factor d_copy k).
    inversion Hnd as [|? ? Hnk Hnd']; subst.
    change (dpre ++ (k, new_rank corpus damping_factor d_copy k) :: dsuf)
      with (dpre ++ [(k, new_rank corpus damping_factor d_copy k)] ++ dsuf).
    rewrite app_assoc.
    rewrite IH.
    + rewrite <- !app_assoc. reflexivity.
    + exact Hkeys.
    + exact Hnd'.
    + intros x Hx. apply Hin. right; exact Hx.
    + intros x Hx. rewrite keys_app, in_app_iff in Hx. simpl in Hx.
      destruct Hx as [Hx|[<-|[]]]; [|exact Hnk].
      intros Hs. apply (Hd x Hx). right; exact Hs.
    + intros x Hx. rewrite keys_app, in_app_iff in Hx. simpl in Hx.
      destruct Hx as [Hx|[<-|[]]]; [|exact Hnk].
      intros Hs. apply (Hdiff x Hx). right; exact Hs.
Qed.

(** One sweep reads only the snapshot [rank] and produces
    [new_rank ... rank p] for every page [p]. *)
Lemma sweep_computes (corpus : Corpus) (damping_factor : Q) (rank : Distribution) :
  corpus <> [] -> dict_ok corpus ->
  Dict.keys rank = Dict.keys corpus ->
  sweep corpus damping_factor rank
  = Ret (sweep_value corpus damping_factor rank,
         sweep_diff corpus damping_factor rank).
Proof.
  intros Hne Hok Hkeys. unfold sweep.
  apply (sweep_from corpus damping_factor rank corpus Hne
           ltac:(rewrite Hkeys; apply incl_refl) rank [] []).
  - exact Hkeys.
  - exact Hok.
  - rewrite Hkeys; apply incl_refl.
  - intros k [].
  - intros k [].
Qed.

Lemma keys_sweep_value (corpus : Corpus) (damping_factor : Q) (rank : Distribution) :
  Dict.keys (sweep_value corpus damping_factor rank) = Dict.keys corpus.
Proof.
  unfold sweep_value, Dict.keys. rewrite map_map. reflexivity.
Qed.

Lemma keys_sweep_diff (corpus : Corpus) (damping_factor : Q) (rank : Distribution) :
  Dict.keys (sweep_diff corpus damping_factor rank) = Dict.keys corpus.
Proof.
  unfold sweep_diff, Dict.keys. rewrite map_map. reflexivity.
Qed.

(** Lines 127-128: the initial ranks. *)
Lemma initial_from (corpus : Corpus) (suf : Corpus) :
  corpus <> [] ->
  forall pre : Distribution,
    NoDup (Dict.keys suf) ->
    (forall k, In k (Dict.keys pre) -> ~ In k (Dict.keys suf)) ->
    foreach (Dict.keys suf) pre
      (fun page d => v <- truediv 1 (len corpus) ;; Ret (Dict.set d page v))
    = Ret (pre ++ map (fun kv => (fst kv, 1 / len corpus)) suf).
Proof.
  intros Hne.
  induction suf as [|[k links] suf IH]; intros pre Hnd Hd.
  - simpl. rewrite app_nil_r. reflexivity.
  - match goal with |- foreach _ _ ?b = _ => set (body := b) in * end.
    change (Dict.keys ((k, links) :: suf)) with (k :: Dict.keys suf).
    cbn [foreach]. unfold body at 1.
    rewrite (truediv_len _ _ Hne); cbn [bind].
    rewrite set_absent by (intros Hx; apply (Hd k Hx); left; reflexivity).
    inversion Hnd as [|? ? Hnk Hnd']; subst.
    rewrite IH.
    + rewrite <- app_assoc. reflexivity.
    + exact Hnd'.
    + intros x Hx. rewrite keys_app, in_app_iff in Hx. simpl in Hx.
      destruct Hx as [Hx|[<-|[]]]; [|exact Hnk].
      intros Hs. apply (Hd x Hx). right; exact Hs.
Qed.

Lemma initial_computes (corpus : Corpus) :
  corpus <> [] -> dict_ok corpus ->
  foreach (Dict.keys corpus) ([] : Distribution)
    (fun page d => v <- truediv 1 (len corpus) ;; Ret (Dict.set d page v))
  = Ret (initial_rank corpus).
Proof.
  intros Hne Hok.
  apply (initial_from corpus corpus Hne [] Hok). intros k [].
Qed.

(** A loop that reads every value of a dict it does not change. *)
Lemma foreach_read_from {S : Type} (h : Q -> S -> outcome S) (suf : Distribution) :
  forall (pre : Distribution) (acc : S),
    NoDup (Dict.keys suf) ->
    (forall k, In k (Dict.keys pre) -> ~ In k (Dict.keys suf)) ->
    foreach (Dict.keys suf) acc
      (fun k a => v <- Dict.getitem (pre ++ suf) k ;; h v a)
    = foreach (Dict.values suf) acc h.
Proof.
  induction suf as [|[k v] suf IH]; intros pre acc Hnd Hd.
  - reflexivity.
  - assert (Hk : ~ In k (Dict.keys pre)).
    { intros Hx. apply (Hd k Hx). left; reflexivity. }
    change (Dict.keys ((k, v) :: suf)) with (k :: Dict.keys suf).
    change (Dict.values ((k, v) :: suf)) with (v :: Dict.values suf).
    cbn [foreach]. unfold Dict.getitem at 1.
    rewrite (get_app_head pre k v suf Hk); cbn [bind].
    destruct (h v acc) as [acc'| |]; cbn [bind]; try reflexivity.
    inversion Hnd as [|? ? Hnk Hnd']; subst.
    replace (pre ++ (k, v) :: suf) with ((pre ++ [(k, v)]) ++ suf)
      by (rewrite <- app_assoc; reflexivity).
    apply IH; [exact Hnd'|].
    intros x Hx. rewrite keys_app, in_app_iff in Hx. simpl in Hx.
    destruct Hx as [Hx|[<-|[]]]; [|exact Hnk].
    intros Hs. apply (Hd x Hx). right; exact Hs.
Qed.

Lemma foreach_read {S : Type} (h : Q -> S -> outcome S) (d : Distribution)
      (acc : S) :
  dict_ok d ->
  foreach (Dict.keys d) acc (fun k a => v <- Dict.getitem d k ;; h v a)
  = foreach (Dict.values d) acc h.
Proof.
  intros Hd. apply (foreach_read_from h d [] acc Hd). intros k [].
Qed.

Lemma check_values (vs : list Q) :
  forall acc : bool,
    foreach vs acc
      (fun v not_convergent =>
         if negb (Qle_bool v threshold) then Ret true else Ret not_convergent)
    = Ret (acc || existsb exceeds vs).
Proof.
  induction vs as [|v vs IH]; intros acc; cbn [foreach existsb].
  - rewrite orb_false_r. reflexivity.
  - unfold exceeds at 1.
    destruct (negb (Qle_bool v threshold)); cbn [bind]; rewrite IH.
    + rewrite orb_true_r. reflexivity.
    + reflexivity.
Qed.

Lemma check_diff_computes (d_diff : Distribution) :
  dict_ok d_diff ->
  check_diff d_diff = Ret (existsb exceeds (Dict.values d_diff)).
Proof.
  intros Hd. unfold check_diff.
  rewrite (foreach_read
             (fun v not_convergent =>
                if negb (Qle_bool v threshold)
                then Ret true else Ret not_convergent) d_diff false Hd).
  apply check_values.
Qed.

Lemma sum_values (vs : list Q) :
  forall acc : Q,
    foreach vs acc (fun v sum_pagerank => Ret (sum_pagerank + v))
    = Ret (fold_left Qplus vs acc).
Proof.
  induction vs as [|v vs IH]; intros acc; cbn [foreach fold_left bind].
  - reflexivity.
  - apply IH.
Qed.

Lemma fold_left_Qplus (vs : list Q) :
  forall acc : Q, fold_left Qplus vs acc == acc + fold_right Qplus 0 vs.
Proof.
  induction vs as [|v vs IH]; intros acc; simpl.
  - lra.
  - rewrite IH. lra.
Qed.

Lemma sum_pagerank_total (d : Distribution) : sum_pagerank_of d == total d.
Proof.
  unfold sum_pagerank_of, total. rewrite fold_left_Qplus. lra.
Qed.

Lemma normalize_computes (d : Distribution) :
  dict_ok d ->
  (d <> [] -> ~ sum_pagerank_of d == 0) ->
  normalize d
  = Ret (map (fun kv => (fst kv, snd kv / sum_pagerank_of d)) d).
Proof.
  intros Hd Hs. unfold normalize.
  rewrite (foreach_read (fun v s => Ret (s + v)) d 0 Hd).
  rewrite sum_values; cbn [bind].
  fold (sum_pagerank_of d).
  pose proof (foreach_update_map (fun v => v / sum_pagerank_of d)
                (fun v => truediv v (sum_pagerank_of d)) d) as Hmap.
  cbv beta in Hmap. apply Hmap; [|exact Hd].
  intros v Hv. apply truediv_ok, Hs.
  destruct d; [destruct Hv | discriminate].
Qed.

(** ** Determinism *)

Lemma foreach_ext {A S : Type} (b1 b2 : A -> S -> outcome S) (xs : list A) :
  forall s : S,
    (forall x s0, In x xs -> b1 x s0 = b2 x s0) ->
    foreach xs s b1 = foreach xs s b2.
Proof.
  induction xs as [|x xs IH]; intros s H; cbn [foreach]; [reflexivity|].
  rewrite (H x s (or_introl eq_refl)).
  destruct (b2 x s) as [s'| |]; cbn [bind]; try reflexivity.
  apply IH. intros y s0 Hy. apply H. right; exact Hy.
Qed.

Lemma foreach_Forall2 {A B S : Type} (R : A -> B -> Prop)
      (b1 : A -> S -> outcome S) (b2 : B -> S -> outcome S)
      (xs : list A) (ys : list B) :
  Forall2 R xs ys ->
  (forall x y s0, R x y -> b1 x s0 = b2 y s0) ->
  forall s : S, foreach xs s b1 = foreach ys s b2.
Proof.
  intros HR Hb. induction HR as [|x y xs ys Hxy HR IH]; intros s;
    cbn [foreach]; [reflexivity|].
  rewrite (Hb x y s Hxy).
  destruct (b2 y s) as [s'| |]; cbn [bind]; try reflexivity.
  apply IH.
Qed.

Lemma mem_Permutation (p : page) (s t : list page) :
  Permutation s t -> mem p s = mem p t.
Proof.
  intros HP.
  destruct (mem p s) eqn:Es; destruct (mem p t) eqn:Et; try reflexivity.
  - apply mem_In in Es. apply mem_false_In in Et.
    exfalso. apply Et. eapply Permutation_in; eassumption.
  - apply mem_In in Et. apply mem_false_In in Es.
    exfalso. apply Es. eapply Permutation_in; [apply Permutation_sym|]; eassumption.
Qed.

Lemma len_Permutation (s t : list page) : Permutation s t -> len s = len t.
Proof.
  intros HP. unfold len. rewrite (Permutation_length HP). reflexivity.
Qed.

Lemma same_graph_keys (c1 c2 : Corpus) :
  same_graph c1 c2 -> Dict.keys c1 = Dict.keys c2.
Proof.
  intros H. induction H as [|x y c1 c2 [Hk _] _ IH]; simpl; [reflexivity|].
  rewrite Hk, IH. reflexivity.
Qed.

Lemma same_graph_len (c1 c2 : Corpus) : same_graph c1 c2 -> len c1 = len c2.
Proof.
  intros H. unfold len. rewrite (Forall2_length H). reflexivity.
Qed.

Lemma inflow_same (c1 c2 : Corpus) (d_copy : Distribution) (p : page) :
  same_graph c1 c2 -> inflow c1 d_copy p = inflow c2 d_copy p.
Proof.
  intros H. unfold inflow. rewrite (same_graph_len c1 c2 H).
  apply (foreach_Forall2 _ _ _ c1 c2 H).
  intros [i1 l1] [i2 l2] prob [Hk HP]. simpl in Hk, HP. subst i2.
  rewrite (mem_Permutation p l1 l2 HP), (len_Permutation l1 l2 HP).
  reflexivity.
Qed.

Lemma sweep_same (c1 c2 : Corpus) (damping_factor : Q) (d : Distribution) :
  same_graph c1 c2 -> sweep c1 damping_factor d = sweep c2 damping_factor d.
Proof.
  intros H. unfold sweep.
  rewrite (same_graph_keys c1 c2 H), (same_graph_len c1 c2 H).
  apply foreach_ext. intros p [d0 diff0] _.
  rewrite (inflow_same c1 c2 d p H). reflexivity.
Qed.

Lemma iterate_loop_same (c1 c2 : Corpus) (damping_factor : Q) (fuel : nat) :
  same_graph c1 c2 ->
  forall d : Distribution,
    iterate_loop fuel c1 damping_factor d = iterate_loop fuel c2 damping_factor d.
Proof.
  intros H. induction fuel as [|fuel IH]; intros d; cbn [iterate_loop].
  - reflexivity.
  - rewrite (sweep_same c1 c2 damping_factor d H).
    destruct (sweep c2 damping_factor d) as [[d1 diff1]| |]; cbn [bind];
      try reflexivity.
    destruct (check_diff diff1) as [[|]| |]; cbn [bind]; try reflexivity.
    apply IH.
Qed.

Lemma iterate_pagerank_same (c1 c2 : Corpus) (damping_factor : Q) (fuel : nat) :
  same_graph c1 c2 ->
  iterate_pagerank fuel c1 damping_factor = iterate_pagerank fuel c2 damping_factor.
Proof.
  intros H. unfold iterate_pagerank.
  rewrite (same_graph_keys c1 c2 H), (same_graph_len c1 c2 H).
  destruct (foreach (Dict.keys c2) _ _) as [d| |]; cbn [bind]; try reflexivity.
  rewrite (iterate_loop_same c1 c2 damping_factor fuel H). reflexivity.
Qed.

(** More fuel does not change a result. *)
Lemma iterate_loop_more_fuel (corpus : Corpus) (damping_factor : Q) (fuel : nat) :
  forall (d r : Distribution) (extra : nat),
    iterate_loop fuel corpus damping_factor d = Ret r ->
    iterate_loop (fuel + extra) corpus damping_factor d = Ret r.
Proof.
  induction fuel as [|fuel IH]; intros d r extra H; [discriminate|].
  cbn [iterate_loop Nat.add] in *.
  destruct (sweep corpus damping_factor d) as [[d1 diff1]| |]; cbn [bind] in *;
    try discriminate.
  destruct (check_diff diff1) as [[|]| |]; cbn [bind] in *; try discriminate.
  - apply IH, H.
  - exact H.
Qed.

Lemma iterate_pagerank_more_fuel (corpus : Corpus) (damping_factor : Q)
      (fuel extra : nat) (r : Distribution) :
  iterate_pagerank fuel corpus damping_factor = Ret r ->
  iterate_pagerank (fuel + extra) corpus damping_factor = Ret r.
Proof.
  unfold iterate_pagerank. intros H.
  destruct (foreach (Dict.keys corpus) _ _) as [d| |]; cbn [bind] in *;
    try discriminate.
  destruct (iterate_loop fuel corpus damping_factor d) as [d1| |] eqn:E;
    cbn [bind] in H; try discriminate.
  rewrite (iterate_loop_more_fuel _ _ _ _ _ extra E); cbn [bind]. exact H.
Qed.

(** C8: [iterate_pagerank] takes no random generator and reads no state
    but its arguments; its result is a function of the corpus and the
    damping factor alone. Two runs that return, on corpora with the same
    keys in the same order and the same link sets (in whatever order the
    interpreter holds each set), return the identical mapping, with the
    same keys in the same order and the same value computed by the same
    operations for each key; the result does not depend on the number of
    sweeps allowed either. *)
Theorem iterate_pagerank_deterministic
        (c1 c2 : Corpus) (damping_factor : Q) (fuel1 fuel2 : nat)
        (r1 r2 : Distribution) :
  same_graph c1 c2 ->
  iterate_pagerank fuel1 c1 damping_factor = Ret r1 ->
  iterate_pagerank fuel2 c2 damping_factor = Ret r2 ->
  r1 = r2.
Proof.
  intros Hsame H1 H2.
  rewrite (iterate_pagerank_same c1 c2 damping_factor fuel1 Hsame) in H1.
  apply (iterate_pagerank_more_fuel _ _ _ fuel2) in H1.
  apply (iterate_pagerank_more_fuel _ _ _ fuel1) in H2.
  rewrite (Nat.add_comm fuel2 fuel1) in H2.
  congruence.
Qed.

(** ** Sums *)

Section QsumFacts.
Context {A : Type}.
Implicit Types (f g : A -> Q) (l : list A).

Lemma Qsum_ext f g l :
  (forall x, In x l -> f x == g x) -> Qsum f l == Qsum g l.
Proof.
  induction l as [|x l IH]; intros H; simpl; [reflexivity|].
  rewrite (H x (or_introl eq_refl)), IH; [reflexivity|].
  intros y Hy. apply H. right; exact Hy.
Qed.

Lemma Qsum_le f g l :
  (forall x, In x l -> f x <= g x) -> Qsum f l <= Qsum g l.
Proof.
  induction l as [|x l IH]; intros H; simpl; [lra|].
  apply Qplus_le_compat; [apply H; left; reflexivity|].
  apply IH. intros y Hy. apply H. right; exact Hy.
Qed.

Lemma Qsum_nonneg f l : (forall x, In x l -> 0 <= f x) -> 0 <= Qsum f l.
Proof.
  induction l as [|x l IH]; intros H; simpl; [lra|].
  pose proof (H x (or_introl eq_refl)).
  assert (0 <= Qsum f l) by (apply IH; intros y Hy; apply H; right; exact Hy).
  lra.
Qed.

Lemma Qsum_plus f g l : Qsum (fun x => f x + g x) l == Qsum f l + Qsum g l.
Proof.
  induction l as [|x l IH]; simpl; [lra|]. rewrite IH. lra.
Qed.

Lemma Qsum_minus f g l : Qsum (fun x => f x - g x) l == Qsum f l - Qsum g l.
Proof.
  induction l as [|x l IH]; simpl; [lra|]. rewrite IH. lra.
Qed.

Lemma Qsum_scale (c : Q) f l : Qsum (fun x => c * f x) l == c * Qsum f l.
Proof.
  induction l as [|x l IH]; simpl; [lra|]. rewrite IH. lra.
Qed.

Lemma Qsum_zero l : Qsum (fun _ : A => 0) l == 0.
Proof.
  induction l as [|x l IH]; simpl; [lra|]. rewrite IH. lra.
Qed.

Lemma Qabs_Qsum f l : Qabs (Qsum f l) <= Qsum (fun x => Qabs (f x)) l.
Proof.
  induction l as [|x l IH]; simpl; [discriminate|].
  eapply Qle_trans; [apply Qabs_triangle|].
  apply Qplus_le_compat; [apply Qle_refl | exact IH].
Qed.

Lemma Qsum_member f l x :
  (forall y, In y l -> 0 <= f y) -> In x l -> f x <= Qsum f l.
Proof.
  induction l as [|y l IH]; intros Hpos Hin; simpl; [destruct Hin|].
  assert (0 <= Qsum f l) by (apply Qsum_nonneg; intros z Hz; apply Hpos; right; exact Hz).
  pose proof (Hpos y (or_introl eq_refl)).
  destruct Hin as [->|Hin]; [lra|].
  assert (f x <= Qsum f l) by (apply IH; [intros z Hz; apply Hpos; right; exact Hz | exact Hin]).
  lra.
Qed.

(** A sum of equal terms over the elements that pass a test. *)
Lemma Qsum_indicator (b : A -> bool) (a : Q) l :
  Qsum (fun x => if b x then a else 0) l == a * len (filter b l).
Proof.
  induction l as [|x l IH]; simpl.
  - unfold len; simpl. change (inject_Z 0) with 0. lra.
  - rewrite IH. destruct (b x); [|lra].
    unfold len. change (List.length (x :: filter b l)) with (S (List.length (filter b l))).
    rewrite Nat2Z.inj_succ, <- Z.add_1_r, inject_Z_plus.
    change (inject_Z 1) with 1. lra.
Qed.

End QsumFacts.

Lemma Qsum_swap {A B : Type} (f : A -> B -> Q) (xs : list A) (ys : list B) :
  Qsum (fun x => Qsum (fun y => f x y) ys) xs
  == Qsum (fun y => Qsum (fun x => f x y) xs) ys.
Proof.
  induction xs as [|x xs IH]; simpl.
  - rewrite Qsum_zero. reflexivity.
  - rewrite IH, Qsum_plus. reflexivity.
Qed.

Lemma total_Qsum (d : Distribution) : total d == Qsum snd d.
Proof.
  unfold total, Dict.values, Qsum.
  induction d as [|[k v] d IH]; simpl; [reflexivity|].
  rewrite IH. reflexivity.
Qed.

Lemma len_le_length {A B : Type} (l : list A) (m : list B) :
  (List.length l <= List.length m)%nat -> len l <= len m.
Proof.
  intros H. unfold len. rewrite <- Zle_Qle. lia.
Qed.

(** ** The recurrence computed by a sweep *)

Lemma inflow_step_sum (corpus : Corpus) (rank : Distribution) (p : page)
      (items : Corpus) :
  forall acc : Q,
    fold_left (inflow_step corpus rank p) items acc
    == acc + Qsum (fun item => link_share rank p item
                               + dangling_share corpus item) items.
Proof.
  induction items as [|[i links] items IH]; intros acc; simpl.
  - lra.
  - rewrite IH. unfold inflow_step, link_share, dangling_share; simpl.
    destruct (mem p links) eqn:Em.
    + destruct (Qeq_bool (len links) 0) eqn:Ez; [|lra].
      apply len_zero_nil in Ez. subst links. discriminate.
    + destruct (Qeq_bool (len links) 0); lra.
Qed.

(** The recurrence the code implements: a page without links adds the
    constant [1 / len(corpus)], whatever its rank. *)
Lemma new_rank_formula (corpus : Corpus) (damping_factor : Q)
      (rank : Distribution) (p : page) :
  new_rank corpus damping_factor rank p
  == (1 - damping_factor) / len corpus
     + damping_factor * Qsum (link_share rank p) corpus
     + damping_factor * Qsum (dangling_share corpus) corpus.
Proof.
  unfold new_rank, inflow_value.
  rewrite inflow_step_sum, Qsum_plus. lra.
Qed.

Lemma new_rank_diff (corpus : Corpus) (damping_factor : Q)
      (r r' : Distribution) (p : page) :
  new_rank corpus damping_factor r p - new_rank corpus damping_factor r' p
  == damping_factor
     * Qsum (fun item => link_share r p item - link_share r' p item) corpus.
Proof.
  rewrite !new_rank_formula, Qsum_minus. lra.
Qed.

Lemma lookup_map_keys (f : page -> Q) (corpus : Corpus) (k : page) :
  In k (Dict.keys corpus) ->
  lookup (map (fun kv => (fst kv, f (fst kv))) corpus) k = f k.
Proof.
  unfold lookup.
  induction corpus as [|[k' links] corpus IH]; simpl; [tauto|].
  destruct (String.eqb_spec k k') as [->|Hne]; [reflexivity|].
  intros [H|H]; [congruence | apply IH, H].
Qed.

Lemma lookup_sweep_value (corpus : Corpus) (damping_factor : Q)
      (rank : Distribution) (k : page) :
  In k (Dict.keys corpus) ->
  lookup (sweep_value corpus damping_factor rank) k
  = new_rank corpus damping_factor rank k.
Proof.
  apply (lookup_map_keys (new_rank corpus damping_factor rank)).
Qed.

Lemma In_keys {V : Type} (kv : page * V) (d : Dict.t V) :
  In kv d -> In (fst kv) (Dict.keys d).
Proof. apply in_map. Qed.

Lemma NoDup_keys_filter {V : Type} (b : page * V -> bool) (d : Dict.t V) :
  NoDup (Dict.keys d) -> NoDup (Dict.keys (filter b d)).
Proof.
  induction d as [|kv d IH]; simpl; intros H; [constructor|].
  inversion H as [|? ? Hn Hd]; subst.
  destruct (b kv); simpl; [|apply IH, Hd].
  constructor; [|apply IH, Hd].
  intros Hin. apply Hn. unfold Dict.keys in *.
  apply in_map_iff in Hin. destruct Hin as [x [Ex Hx]].
  apply filter_In in Hx. rewrite <- Ex. apply in_map, Hx.
Qed.

(** The pages of the corpus that are in a link set are at most as many as
    the links. *)
Lemma linked_pages_bound (corpus : Corpus) (links : list page) :
  dict_ok corpus ->
  (List.length (filter (fun kv => mem (fst kv) links) corpus)
   <= List.length links)%nat.
Proof.
  intros Hok.
  rewrite <- (length_map fst (filter _ corpus)).
  apply NoDup_incl_length.
  - apply (NoDup_keys_filter _ corpus Hok).
  - intros k Hk. apply in_map_iff in Hk. destruct Hk as [kv [<- Hkv]].
    apply filter_In in Hkv. apply mem_In, Hkv.
Qed.

Lemma column_bound (corpus : Corpus) (links : list page) (delta : Q) :
  dict_ok corpus -> 0 <= delta ->
  Qsum (fun kv : page * list page =>
          if mem (fst kv) links then delta / len links else 0) corpus
  <= delta.
Proof.
  intros Hok Hdelta.
  destruct links as [|l links].
  - cbn [mem]. rewrite Qsum_zero. exact Hdelta.
  - rewrite (Qsum_indicator
               (fun kv : page * list page => mem (fst kv) (l :: links))).
    pose proof (len_cons_pos l links) as Hpos.
    pose proof (len_le_length _ _ (linked_pages_bound corpus (l :: links) Hok)) as Hle.
    set (n := len (l :: links)) in *.
    set (m := len (filter _ corpus)) in *.
    assert (E : delta / n * m == delta * (m / n)) by (field; lra).
    rewrite E.
    assert (Hmn : m / n <= 1).
    { apply Qle_shift_div_r; [exact Hpos | lra]. }
    assert (Hm : 0 <= m / n).
    { apply Qle_shift_div_l; [exact Hpos|]. rewrite Qmult_0_l. apply len_nonneg. }
    nra.
Qed.

Lemma Qmult_le_l_nonneg (c x y : Q) : x <= y -> 0 <= c -> c * x <= c * y.
Proof.
  intros Hxy Hc. rewrite (Qmult_comm c x), (Qmult_comm c y).
  apply Qmult_le_compat_r; assumption.
Qed.

Lemma Qabs_div_pos (x n : Q) : 0 < n -> Qabs (x / n) == Qabs x / n.
Proof.
  intros Hn. unfold Qdiv. rewrite Qabs_Qmult.
  rewrite (Qabs_pos (/ n)); [reflexivity|].
  apply Qinv_le_0_compat. lra.
Qed.

Lemma link_share_diff (corpus : Corpus) (damping_factor : Q)
      (rank : Distribution) (p : page) (item : page * list page) :
  In item corpus ->
  Qabs (link_share rank p item
        - link_share (sweep_value corpus damping_factor rank) p item)
  == (if mem p (snd item)
      then Qabs (lookup rank (fst item)
                 - new_rank corpus damping_factor rank (fst item))
           / len (snd item)
      else 0).
Proof.
  intros Hin. unfold link_share.
  destruct (mem p (snd item)) eqn:Em.
  - rewrite (lookup_sweep_value _ _ _ _ (In_keys _ _ Hin)).
    apply mem_In in Em.
    pose proof (len_pos _ (In_nonempty _ _ Em)) as Hpos.
    rewrite <- Qabs_div_pos by exact Hpos.
    apply Qabs_wd. field. lra.
  - reflexivity.
Qed.

(** A sweep shrinks the total change by the damping factor. *)
Lemma sweep_change_contracts (corpus : Corpus) (damping_factor : Q)
      (rank : Distribution) :
  dict_ok corpus -> 0 <= damping_factor ->
  sweep_change corpus damping_factor (sweep_value corpus damping_factor rank)
  <= damping_factor * sweep_change corpus damping_factor rank.
Proof.
  intros Hok Hd. unfold sweep_change.
  set (r' := sweep_value corpus damping_factor rank).
  set (delta := fun item : page * list page =>
                  Qabs (lookup rank (fst item)
                        - new_rank corpus damping_factor rank (fst item))).
  set (g := fun (kv item : page * list page) =>
              if mem (fst kv) (snd item)
              then delta item / len (snd item) else 0).
  apply Qle_trans with
      (Qsum (fun kv => damping_factor * Qsum (fun item => g kv item) corpus) corpus).
  - apply Qsum_le. intros kv Hkv.
    unfold r' at 1. rewrite (lookup_sweep_value _ _ _ _ (In_keys _ _ Hkv)).
    fold r'. rewrite new_rank_diff, Qabs_Qmult, (Qabs_pos _ Hd).
    apply Qmult_le_l_nonneg; [|exact Hd].
    eapply Qle_trans; [apply Qabs_Qsum|].
    apply Qle_lteq. right. apply Qsum_ext. intros item Hitem.
    unfold r', g, delta. apply link_share_diff, Hitem.
  - rewrite Qsum_scale, Qsum_swap.
    apply Qmult_le_l_nonneg; [|exact Hd].
    apply Qsum_le. intros item Hitem. unfold g.
    apply column_bound; [exact Hok | apply Qabs_nonneg].
Qed.

(** ** The loop stops *)

Lemma values_sweep_diff (corpus : Corpus) (damping_factor : Q) (rank : Distribution) :
  Dict.values (sweep_diff corpus damping_factor rank)
  = map (fun kv => Qabs (lookup rank (fst kv)
                         - new_rank corpus damping_factor rank (fst kv))) corpus.
Proof.
  unfold sweep_diff, Dict.values. rewrite map_map. reflexivity.
Qed.

Lemma small_change_converged (corpus : Corpus) (damping_factor : Q)
      (rank : Distribution) :
  sweep_change corpus damping_factor rank <= threshold ->
  existsb exceeds (Dict.values (sweep_diff corpus damping_factor rank)) = false.
Proof.
  intros Hsmall.
  destruct (existsb _ _) eqn:E; [|reflexivity].
  apply existsb_exists in E. destruct E as [v [Hin Hv]].
  rewrite values_sweep_diff in Hin. apply in_map_iff in Hin.
  destruct Hin as [kv [<- Hkv]].
  unfold exceeds in Hv. apply negb_true_iff in Hv.
  assert (Hle : Qle_bool (Qabs (lookup rank (fst kv)
                 - new_rank corpus damping_factor rank (fst kv))) threshold = true).
  { apply Qle_bool_iff. eapply Qle_trans; [|exact Hsmall].
    unfold sweep_change.
    apply (Qsum_member
             (fun kv => Qabs (lookup rank (fst kv)
                              - new_rank corpus damping_factor rank (fst kv)))).
    - intros y _. apply Qabs_nonneg.
    - exact Hkv. }
  congruence.
Qed.

Lemma dict_ok_sweep_diff (corpus : Corpus) (damping_factor : Q) (rank : Distribution) :
  dict_ok corpus -> dict_ok (sweep_diff corpus damping_factor rank).
Proof.
  unfold dict_ok. rewrite keys_sweep_diff. auto.
Qed.

Lemma iterate_loop_step (corpus : Corpus) (damping_factor : Q) (fuel : nat)
      (rank : Distribution) :
  corpus <> [] -> dict_ok corpus ->
  Dict.keys rank = Dict.keys corpus ->
  iterate_loop (S fuel) corpus damping_factor rank
  = if existsb exceeds (Dict.values (sweep_diff corpus damping_factor rank))
    then iterate_loop fuel corpus damping_factor
                      (sweep_value corpus damping_factor rank)
    else Ret (sweep_value corpus damping_factor rank).
Proof.
  intros Hne Hok Hkeys. cbn [iterate_loop].
  rewrite (sweep_computes corpus damping_factor rank Hne Hok Hkeys); cbn [bind].
  rewrite (check_diff_computes _ (dict_ok_sweep_diff _ _ _ Hok)); cbn [bind].
  reflexivity.
Qed.

Lemma iterate_loop_terminates (corpus : Corpus) (damping_factor : Q) :
  corpus <> [] -> dict_ok corpus ->
  0 < damping_factor -> damping_factor < 1 ->
  forall (m : nat) (rank : Distribution),
    Dict.keys rank = Dict.keys corpus ->
    sweep_change corpus damping_factor rank
    <= threshold * (1 + inject_Z (Z.of_nat m) * (1 - damping_factor)) ->
    exists r, iterate_loop (S m) corpus damping_factor rank = Ret r.
Proof.
  intros Hne Hok Hd0 Hd1.
  induction m as [|m IH]; intros rank Hkeys Hchange;
    rewrite (iterate_loop_step _ _ _ _ Hne Hok Hkeys).
  - rewrite small_change_converged; [eexists; reflexivity|].
    simpl in Hchange. change (inject_Z 0) with 0 in Hchange. lra.
  - destruct (existsb _ _); [|eexists; reflexivity].
    apply IH; [apply keys_sweep_value|].
    eapply Qle_trans; [apply sweep_change_contracts; [exact Hok | lra]|].
    rewrite Nat2Z.inj_succ, <- Z.add_1_r, inject_Z_plus in Hchange.
    change (inject_Z 1) with 1 in Hchange.
    set (M := inject_Z (Z.of_nat m)) in *.
    assert (HM : 0 <= M).
    { unfold M. change 0 with (inject_Z 0). rewrite <- Zle_Qle. lia. }
    set (e := sweep_change corpus damping_factor rank) in *.
    assert (Ht : 0 < threshold) by reflexivity.
    set (t := threshold) in *.
    apply Qle_trans
      with (damping_factor * (t * (1 + (M + 1) * (1 - damping_factor)))).
    + apply Qmult_le_l_nonneg; [exact Hchange | lra].
    + assert (E : t * (1 + M * (1 - damping_factor))
                  - damping_factor * (t * (1 + (M + 1) * (1 - damping_factor)))
                  == t * ((1 - damping_factor) * (1 - damping_factor) * (1 + M)))
        by ring.
      assert (Hsq : 0 <= (1 - damping_factor) * (1 - damping_factor) * (1 + M)).
      { apply Qmult_le_0_compat; [apply Qmult_le_0_compat|]; lra. }
      assert (0 <= t * ((1 - damping_factor) * (1 - damping_factor) * (1 + M))).
      { apply Qmult_le_0_compat; lra. }
      lra.
Qed.

Lemma enough_sweeps (e t c : Q) :
  0 < t -> 0 < c ->
  exists m : nat, e <= t * (1 + inject_Z (Z.of_nat m) * c).
Proof.
  intros Ht Hc.
  exists (Z.to_nat (Qceiling (e / (t * c)))).
  set (z := Qceiling (e / (t * c))).
  assert (Htc : 0 < t * c).
  { rewrite <- (Qmult_0_l c). apply Qmult_lt_compat_r; assumption. }
  assert (Hz : e / (t * c) <= inject_Z (Z.of_nat (Z.to_nat z))).
  { eapply Qle_trans; [apply Qle_ceiling|]. fold z.
    rewrite <- Zle_Qle. lia. }
  set (M := inject_Z (Z.of_nat (Z.to_nat z))) in *.
  assert (He : e <= M * (t * c)).
  { assert (E : e == e / (t * c) * (t * c)) by (field; lra).
    rewrite E at 1. apply Qmult_le_compat_r; [exact Hz | lra]. }
  lra.
Qed.

(** ** The ranks stay positive *)

Lemma new_rank_pos (corpus : Corpus) (damping_factor : Q)
      (rank : Distribution) (p : page) :
  corpus <> [] -> 0 <= damping_factor -> damping_factor < 1 ->
  nonneg_rank rank ->
  0 < new_rank corpus damping_factor rank p.
Proof.
  intros Hne Hd0 Hd1 Hrank. rewrite new_rank_formula.
  pose proof (len_pos corpus Hne) as HN.
  assert (H1 : 0 < (1 - damping_factor) / len corpus)
    by (apply Qdiv_pos; lra).
  assert (H2 : 0 <= Qsum (link_share rank p) corpus).
  { apply Qsum_nonneg. intros [i links] _. unfold link_share; simpl.
    destruct (mem p links) eqn:Em; [|lra].
    apply mem_In in Em. pose proof (len_pos _ (In_nonempty _ _ Em)).
    apply Qle_shift_div_l; [assumption|]. rewrite Qmult_0_l. apply Hrank. }
  assert (H3 : 0 <= Qsum (dangling_share corpus) corpus).
  { apply Qsum_nonneg. intros [i links] _. unfold dangling_share; simpl.
    destruct (Qeq_bool (len links) 0); [|lra].
    apply Qlt_le_weak, Qdiv_pos; lra. }
  assert (0 <= damping_factor * Qsum (link_share rank p) corpus)
    by (apply Qmult_le_0_compat; assumption).
  assert (0 <= damping_factor * Qsum (dangling_share corpus) corpus)
    by (apply Qmult_le_0_compat; assumption).
  lra.
Qed.

Lemma values_pos_nonneg (rank : Distribution) :
  Forall (fun v => 0 < v) (Dict.values rank) -> nonneg_rank rank.
Proof.
  intros H k. unfold lookup.
  destruct (Dict.get rank k) as [v|] eqn:E; [|lra].
  rewrite Forall_forall in H.
  apply Qlt_le_weak, H, (get_In_values _ _ _ E).
Qed.

Lemma values_sweep_value_pos (corpus : Corpus) (damping_factor : Q)
      (rank : Distribution) :
  corpus <> [] -> 0 <= damping_factor -> damping_factor < 1 ->
  nonneg_rank rank ->
  Forall (fun v => 0 < v) (Dict.values (sweep_value corpus damping_factor rank)).
Proof.
  intros Hne Hd0 Hd1 Hrank.
  unfold sweep_value, Dict.values. rewrite map_map. apply Forall_map.
  apply Forall_forall. intros kv _. simpl. apply new_rank_pos; assumption.
Qed.

Lemma initial_rank_pos (corpus : Corpus) :
  corpus <> [] -> Forall (fun v => 0 < v) (Dict.values (initial_rank corpus)).
Proof.
  intros Hne. unfold initial_rank, Dict.values. rewrite map_map.
  apply Forall_map, Forall_forall. intros kv _. simpl.
  apply Qdiv_pos; [lra | apply len_pos, Hne].
Qed.

Lemma keys_initial_rank (corpus : Corpus) :
  Dict.keys (initial_rank corpus) = Dict.keys corpus.
Proof.
  unfold initial_rank, Dict.keys. rewrite map_map. reflexivity.
Qed.

(** Whatever the loop returns is the outcome of a sweep over ranks that are
    not negative. *)
Lemma iterate_loop_result (corpus : Corpus) (damping_factor : Q) (fuel : nat) :
  corpus <> [] -> dict_ok corpus ->
  0 <= damping_factor -> damping_factor < 1 ->
  forall rank r : Distribution,
    Dict.keys rank = Dict.keys corpus ->
    nonneg_rank rank ->
    iterate_loop fuel corpus damping_factor rank = Ret r ->
    Dict.keys r = Dict.keys corpus
    /\ Forall (fun v => 0 < v) (Dict.values r).
Proof.
  intros Hne Hok Hd0 Hd1.
  induction fuel as [|fuel IH]; intros rank r Hkeys Hrank H; [discriminate|].
  rewrite (iterate_loop_step _ _ _ _ Hne Hok Hkeys) in H.
  pose proof (values_sweep_value_pos corpus damping_factor rank
                Hne Hd0 Hd1 Hrank) as Hpos.
  destruct (existsb _ _).
  - apply (IH _ _ (keys_sweep_value _ _ _) (values_pos_nonneg _ Hpos) H).
  - injection H as <-. split; [apply keys_sweep_value | exact Hpos].
Qed.

(** ** The final normalisation *)

Lemma total_pos (d : Distribution) :
  d <> [] -> Forall (fun v => 0 < v) (Dict.values d) -> 0 < total d.
Proof.
  intros Hne Hpos. rewrite total_Qsum.
  destruct d as [|[k v] d]; [congruence|].
  simpl in *. inversion Hpos as [|? ? Hv Hrest]; subst.
  assert (0 <= Qsum snd d).
  { apply Qsum_nonneg. intros kv Hkv. rewrite Forall_forall in Hrest.
    apply Qlt_le_weak, Hrest. unfold Dict.values. apply in_map, Hkv. }
  lra.
Qed.

Lemma value_le_total (d : Distribution) (v : Q) :
  Forall (fun v => 0 < v) (Dict.values d) -> In v (Dict.values d) -> v <= total d.
Proof.
  intros Hpos Hin. rewrite total_Qsum.
  unfold Dict.values in Hin. apply in_map_iff in Hin.
  destruct Hin as [kv [<- Hkv]].
  apply (Qsum_member snd); [|exact Hkv].
  intros y Hy. rewrite Forall_forall in Hpos.
  apply Qlt_le_weak, Hpos. unfold Dict.values. apply in_map, Hy.
Qed.

Lemma normalize_distribution (d : Distribution) :
  d <> [] -> dict_ok d ->
  Forall (fun v => 0 < v) (Dict.values d) ->
  exists r,
    normalize d = Ret r
    /\ Dict.keys r = Dict.keys d
    /\ total r == 1
    /\ Forall (fun v => 0 <= v /\ v <= 1) (Dict.values r).
Proof.
  intros Hne Hok Hpos.
  pose proof (total_pos d Hne Hpos) as Htot.
  pose proof (sum_pagerank_total d) as Hsum.
  rewrite normalize_computes; [|exact Hok | intros _; lra].
  eexists. split; [reflexivity|]. split; [|split].
  - apply (keys_map_values (fun v => v / sum_pagerank_of d)).
  - rewrite total_scaled, Hsum. field. lra.
  - rewrite (values_map_values (fun v => v / sum_pagerank_of d)).
    apply Forall_map, Forall_forall. intros v Hv.
    pose proof (value_le_total d v Hpos Hv) as Hle.
    rewrite Forall_forall in Hpos. pose proof (Hpos v Hv) as Hv0.
    split.
    + apply Qle_shift_div_l; [lra|]. rewrite Qmult_0_l. lra.
    + apply Qle_shift_div_r; lra.
Qed.

(** ** Claims about iterate_pagerank *)

(** C5: for a non-empty corpus and a damping factor in (0,1) the loop of
    [iterate_pagerank] stops (some number of sweeps suffices), and the
    mapping it returns after the normalisation of lines 148-153 has the
    pages of the corpus as keys, values that sum to 1 (so within 1e-6 of
    1) and every value in [0,1]. Numbers are exact rationals here. *)
Theorem iterate_pagerank_distribution (corpus : Corpus) (damping_factor : Q) :
  corpus <> [] -> dict_ok corpus ->
  0 < damping_factor -> damping_factor < 1 ->
  (exists fuel r, iterate_pagerank fuel corpus damping_factor = Ret r)
  /\ (forall fuel r,
         iterate_pagerank fuel corpus damping_factor = Ret r ->
         Dict.keys r = Dict.keys corpus
         /\ total r == 1
         /\ Qabs (total r - 1) <= 1 # 1000000
         /\ Forall (fun v => 0 <= v /\ v <= 1) (Dict.values r)).
Proof.
  intros Hne Hok Hd0 Hd1.
  assert (Hkne : forall d : Distribution,
             Dict.keys d = Dict.keys corpus -> d <> [] /\ dict_ok d).
  { intros d Hk. split.
    - intros ->. destruct corpus; [congruence | discriminate].
    - unfold dict_ok. rewrite Hk. exact Hok. }
  assert (Hall : forall fuel r,
             iterate_pagerank fuel corpus damping_factor = Ret r ->
             Dict.keys r = Dict.keys corpus
             /\ total r == 1
             /\ Forall (fun v => 0 <= v /\ v <= 1) (Dict.values r)).
  { intros fuel r H. unfold iterate_pagerank in H.
    rewrite (initial_computes corpus Hne Hok) in H; cbn [bind] in H.
    apply bind_ret_inv in H. destruct H as [d1 [Eloop Hnorm]].
    destruct (iterate_loop_result corpus damping_factor fuel Hne Hok
                (Qlt_le_weak _ _ Hd0) Hd1 _ _ (keys_initial_rank corpus)
                (values_pos_nonneg _ (initial_rank_pos corpus Hne)) Eloop)
      as [Hk1 Hpos1].
    destruct (Hkne d1 Hk1) as [Hne1 Hok1].
    destruct (normalize_distribution d1 Hne1 Hok1 Hpos1)
      as [r' [Er' [Hk' [Ht' Hv']]]].
    rewrite Er' in Hnorm. injection Hnorm as <-.
    split; [congruence|]. split; assumption. }
  split.
  - destruct (enough_sweeps
                (sweep_change corpus damping_factor (initial_rank corpus))
                threshold (1 - damping_factor)) as [m Hm];
      [reflexivity | lra |].
    destruct (iterate_loop_terminates corpus damping_factor Hne Hok Hd0 Hd1
                m (initial_rank corpus) (keys_initial_rank corpus) Hm)
      as [d1 Eloop].
    destruct (iterate_loop_result corpus damping_factor (S m) Hne Hok
                (Qlt_le_weak _ _ Hd0) Hd1 _ _ (keys_initial_rank corpus)
                (values_pos_nonneg _ (initial_rank_pos corpus Hne)) Eloop)
      as [Hk1 Hpos1].
    destruct (Hkne d1 Hk1) as [Hne1 Hok1].
    destruct (normalize_distribution d1 Hne1 Hok1 Hpos1) as [r [Er _]].
    exists (S m), r. unfold iterate_pagerank.
    rewrite (initial_computes corpus Hne Hok); cbn [bind].
    rewrite Eloop; cbn [bind]. exact Er.
  - intros fuel r H. destruct (Hall fuel r H) as [Hk [Ht Hv]].
    split; [exact Hk|]. split; [exact Ht|]. split; [|exact Hv].
    rewrite Ht. vm_compute. discriminate.
Qed.

Lemma iterate_pagerank_distribution_witness :
  (exists fuel r, iterate_pagerank fuel corpus_pair (17 # 20) = Ret r)
  /\ (forall fuel r,
         iterate_pagerank fuel corpus_pair (17 # 20) = Ret r ->
         Dict.keys r = Dict.keys corpus_pair
         /\ total r == 1
         /\ Qabs (total r - 1) <= 1 # 1000000
         /\ Forall (fun v => 0 <= v /\ v <= 1) (Dict.values r)).
Proof.
  apply (iterate_pagerank_distribution corpus_pair (17 # 20)).
  - discriminate.
  - unfold dict_ok. simpl. repeat constructor; simpl; intuition discriminate.
  - reflexivity.
  - reflexivity.
Defined.

Lemma iterate_pagerank_deterministic_witness :
  exists r1 r2,
    same_graph corpus_triangle corpus_triangle'
    /\ iterate_pagerank 1 corpus_triangle (17 # 20) = Ret r1
    /\ iterate_pagerank 2 corpus_triangle' (17 # 20) = Ret r2
    /\ r1 = r2.
Proof.
  assert (Hsame : same_graph corpus_triangle corpus_triangle').
  { repeat constructor; simpl; apply perm_swap. }
  eexists. eexists. split; [exact Hsame|].
  split; [vm_compute; reflexivity|].
  split; [vm_compute; reflexivity|].
  apply (iterate_pagerank_deterministic corpus_triangle corpus_triangle'
           (17 # 20) 1 2).
  - exact Hsame.
  - vm_compute. reflexivity.
  - vm_compute. reflexivity.
Defined.

(** C4, as the code has it: a sweep returns, and the new rank of every page
    [p] is computed from the snapshot [rank] taken before the sweep as
    (1 - d)/|V| + d * (sum over the pages i that link to p of
    rank(i)/|successors(i)|) + d * (sum over the pages i without links of
    1/|V|): a page without links adds the constant 1/|V|, not its rank
    divided by |V|. *)
Theorem sweep_recurrence (corpus : Corpus) (damping_factor : Q)
        (rank : Distribution) :
  corpus <> [] -> dict_ok corpus ->
  Dict.keys rank = Dict.keys corpus ->
  exists rank' d_diff,
    sweep corpus damping_factor rank = Ret (rank', d_diff)
    /\ Dict.keys rank' = Dict.keys corpus
    /\ forall p,
        In p (Dict.keys corpus) ->
        lookup rank' p
        == (1 - damping_factor) / len corpus
           + damping_factor * Qsum (link_share rank p) corpus
           + damping_factor * Qsum (dangling_share corpus) corpus.
Proof.
  intros Hne Hok Hkeys.
  exists (sweep_value corpus damping_factor rank),
         (sweep_diff corpus damping_factor rank).
  split; [apply sweep_computes; assumption|].
  split; [apply keys_sweep_value|].
  intros p Hp. rewrite (lookup_sweep_value _ _ _ _ Hp).
  apply new_rank_formula.
Qed.

Lemma sweep_recurrence_witness :
  exists rank' d_diff,
    sweep corpus_chain (1 # 2) (initial_rank corpus_chain) = Ret (rank', d_diff)
    /\ Dict.keys rank' = Dict.keys corpus_chain
    /\ forall p,
        In p (Dict.keys corpus_chain) ->
        lookup rank' p
        == (1 - (1 # 2)) / len corpus_chain
           + (1 # 2) * Qsum (link_share (initial_rank corpus_chain) p) corpus_chain
           + (1 # 2) * Qsum (dangling_share corpus_chain) corpus_chain.
Proof.
  apply (sweep_recurrence corpus_chain (1 # 2) (initial_rank corpus_chain)).
  - discriminate.
  - unfold dict_ok. simpl. repeat constructor; simpl; intuition discriminate.
  - reflexivity.
Defined.

(** C4 fails as stated: on [{"a": {"b"}, "b": set()}] with damping 1/2 and
    both ranks 1/2, the sweep gives "a" the rank 1/4 + 1/2 * (1/2) = 1/2,
    while the recurrence of the specification gives
    1/4 + 1/2 * ((1/2)/2) = 3/8. *)
Lemma sweep_dangling_not_weighted :
  exists rank' d_diff,
    sweep corpus_chain (1 # 2) (initial_rank corpus_chain) = Ret (rank', d_diff)
    /\ lookup rank' "a"%string == 1 # 2
    /\ spec_new_rank corpus_chain (1 # 2) (initial_rank corpus_chain) "a"%string
       == 3 # 8
    /\ ~ lookup rank' "a"%string
         == spec_new_rank corpus_chain (1 # 2) (initial_rank corpus_chain)
                          "a"%string.
Proof.
  eexists. eexists. split; [vm_compute; reflexivity|].
  split; [reflexivity|]. split; [reflexivity | discriminate].
Qed.

(** * Input validation *)







(** * The values of transition_model *)

Lemma mem_snoc (k x : page) (pre : list page) :
  mem k (pre ++ [x]) = mem k pre || String.eqb k x.
Proof.
  induction pre as [|y pre IH]; simpl.
  - destruct (String.eqb k x); reflexivity.
  - destruct (String.eqb k y); [reflexivity | exact IH].
Qed.

Lemma NoDup_prefix_notin {A : Type} (pre suf : list A) (x : A) :
  NoDup (pre ++ x :: suf) -> ~ In x pre.
Proof.
  intros H Hin. apply NoDup_remove_2 in H. apply H, in_or_app. left; exact Hin.
Qed.

Lemma transition_model_values (corpus : Corpus) (page0 : page)
      (damping_factor : Q) (links : list page) :
  dict_ok corpus ->
  Dict.get corpus page0 = Some links ->
  exists dist,
    transition_model corpus page0 damping_factor = Ret (TMDist dist)
    /\ forall k, In k (Dict.keys corpus) ->
                 Dict.get dist k = Some (tm_value corpus links damping_factor k).
Proof.
  intros Hok Eget.
  assert (Hpage : In page0 (Dict.keys corpus)).
  { apply get_In_keys. eauto. }
  pose proof (keys_nonempty corpus page0 Hpage) as Hne.
  assert (Eg : Dict.getitem corpus page0 = Ret links).
  { unfold Dict.getitem. rewrite Eget. reflexivity. }
  unfold transition_model. rewrite Eg; cbn [bind].
  rewrite links_never_equal_dict.
  destruct (foreach_prefix_inv
    (fun pre (dist : Distribution) =>
       forall k, Dict.get dist k
                 = if mem k pre then Some (damping_factor / len links) else None)
    (fun page distribution =>
       v <- truediv damping_factor (len links) ;;
       Ret (Dict.set distribution page v))
    links [] []) as [dist1 [E1 K1]].
  { intros k. reflexivity. }
  { intros pre x suf s0 Heq K.
    assert (Hl : links <> []).
    { simpl in Heq. rewrite Heq. destruct pre; discriminate. }
    rewrite (truediv_len _ _ Hl); cbn [bind].
    eexists; split; [reflexivity|]. intros k. rewrite mem_snoc.
    destruct (String.eqb_spec k x) as [->|Hkx].
    - rewrite get_set_same, orb_true_r. reflexivity.
    - rewrite (get_set_other _ _ _ _ Hkx), orb_false_r. apply K. }
  simpl in E1, K1. rewrite E1; cbn [bind].
  destruct (foreach_prefix_inv
    (fun pre (dist : Distribution) =>
       forall k, Dict.get dist k
                 = if mem k pre
                   then Some (tm_value corpus links damping_factor k)
                   else if mem k links
                        then Some (damping_factor / len links) else None)
    (fun page distribution =>
       if mem page links then
         old <- Dict.getitem distribution page ;;
         v <- truediv (1 - damping_factor) (len corpus) ;;
         Ret (Dict.set distribution page (old + v))
       else
         v <- truediv (1 - damping_factor) (len corpus) ;;
         Ret (Dict.set distribution page v))
    (Dict.keys corpus) [] dist1) as [dist2 [E2 K2]].
  { intros k. simpl. apply K1. }
  { intros pre x suf s0 Heq K. simpl in Heq.
    assert (Hx : mem x pre = false).
    { apply mem_false_In. apply (NoDup_prefix_notin pre suf).
      rewrite <- Heq. exact Hok. }
    pose proof (K x) as Kx. rewrite Hx in Kx.
    destruct (mem x links) eqn:Em.
    - unfold Dict.getitem. rewrite Kx; cbn [bind].
      rewrite (truediv_len _ _ Hne); cbn [bind].
      eexists; split; [reflexivity|]. intros k. rewrite mem_snoc.
      destruct (String.eqb_spec k x) as [->|Hkx].
      + rewrite get_set_same, orb_true_r. unfold tm_value. rewrite Em.
        reflexivity.
      + rewrite (get_set_other _ _ _ _ Hkx), orb_false_r. apply K.
    - rewrite (truediv_len _ _ Hne); cbn [bind].
      eexists; split; [reflexivity|]. intros k. rewrite mem_snoc.
      destruct (String.eqb_spec k x) as [->|Hkx].
      + rewrite get_set_same, orb_true_r. unfold tm_value. rewrite Em.
        reflexivity.
      + rewrite (get_set_other _ _ _ _ Hkx), orb_false_r. apply K. }
  simpl in E2, K2. rewrite E2; cbn [bind].
  exists dist2. split; [reflexivity|].
  intros k Hk. rewrite K2. apply mem_In in Hk. rewrite Hk. reflexivity.
Qed.

(** For a page without links every page of the corpus gets
    (1 - d)/|V|: the uniform value 1/|V| is never produced. *)
Lemma transition_model_dangling (corpus : Corpus) (page0 : page)
      (damping_factor : Q) :
  dict_ok corpus ->
  Dict.get corpus page0 = Some [] ->
  exists dist,
    transition_model corpus page0 damping_factor = Ret (TMDist dist)
    /\ forall k, In k (Dict.keys corpus) ->
                 Dict.get dist k = Some ((1 - damping_factor) / len corpus).
Proof.
  intros Hok Eget.
  destruct (transition_model_values corpus page0 damping_factor [] Hok Eget)
    as [dist [E H]].
  exists dist. split; [exact E|]. intros k Hk. apply (H k Hk).
Qed.

Lemma Qsum_Permutation {A : Type} (f : A -> Q) (l l' : list A) :
  Permutation l l' -> Qsum f l == Qsum f l'.
Proof.
  intros H. induction H; simpl.
  - reflexivity.
  - rewrite IHPermutation. reflexivity.
  - lra.
  - rewrite IHPermutation1. exact IHPermutation2.
Qed.

Lemma Qsum_const {A : Type} (c : Q) (l : list A) :
  Qsum (fun _ => c) l == c * len l.
Proof.
  induction l as [|x l IH]; simpl.
  - unfold len; simpl. change (inject_Z 0) with 0. lra.
  - rewrite IH. unfold len.
    change (List.length (x :: l)) with (S (List.length l)).
    rewrite Nat2Z.inj_succ, <- Z.add_1_r, inject_Z_plus.
    change (inject_Z 1) with 1. lra.
Qed.

Lemma lookup_cons_other (k k' : page) (v : Q) (d : Distribution) :
  k' <> k -> lookup ((k, v) :: d) k' = lookup d k'.
Proof.
  intros Hne. unfold lookup. simpl.
  destruct (String.eqb_spec k' k); [congruence | reflexivity].
Qed.

Lemma total_by_keys (d : Distribution) :
  dict_ok d -> total d == Qsum (lookup d) (Dict.keys d).
Proof.
  unfold dict_ok. induction d as [|[k v] d IH]; intros Hok.
  - reflexivity.
  - inversion Hok as [|? ? Hnk Hd]; subst.
    change (total ((k, v) :: d)) with (v + total d).
    change (Dict.keys ((k, v) :: d)) with (k :: Dict.keys d).
    cbn [Qsum fold_right].
    assert (Ek : lookup ((k, v) :: d) k = v).
    { unfold lookup; simpl. rewrite String.eqb_refl. reflexivity. }
    rewrite Ek, (IH Hd).
    apply Qplus_comp; [reflexivity|].
    apply Qsum_ext. intros k' Hk'.
    rewrite lookup_cons_other; [reflexivity|].
    intros ->. exact (Hnk Hk').
Qed.

Lemma len_keys {V : Type} (d : Dict.t V) : len (Dict.keys d) = len d.
Proof.
  unfold len, Dict.keys. rewrite length_map. reflexivity.
Qed.

(** The mass of the result of [transition_model], for a corpus whose links
    stay inside it. *)
Lemma transition_model_total (corpus : Corpus) (page0 : page)
      (damping_factor : Q) (links : list page) :
  dict_ok corpus ->
  Dict.get corpus page0 = Some links ->
  NoDup links -> incl links (Dict.keys corpus) ->
  exists dist,
    transition_model corpus page0 damping_factor = Ret (TMDist dist)
    /\ total dist
       == (if Qeq_bool (len links) 0 then 1 - damping_factor else 1).
Proof.
  intros Hok Eget Hnd Hincl.
  assert (Hpage : In page0 (Dict.keys corpus)).
  { apply get_In_keys. eauto. }
  pose proof (keys_nonempty corpus page0 Hpage) as Hne.
  pose proof (len_pos corpus Hne) as HN.
  destruct (transition_model_values corpus page0 damping_factor links Hok Eget)
    as [dist [E Hval]].
  destruct (transition_model_post corpus page0 damping_factor Hpage)
    as [links' [dist' [Eget' [E' [Hkeys [Hdok _]]]]]].
  rewrite Eget in Eget'. injection Eget' as <-.
  rewrite E in E'. injection E' as <-.
  exists dist. split; [exact E|].
  assert (Hperm : Permutation (Dict.keys dist) (Dict.keys corpus)).
  { apply NoDup_Permutation; [exact Hdok | exact Hok |].
    intros k. rewrite Hkeys. split; [intros [H|H]; auto | auto]. }
  rewrite (total_by_keys dist Hdok), (Qsum_Permutation _ _ _ Hperm).
  rewrite (Qsum_ext _ (fun k => (1 - damping_factor) / len corpus
                                + (if mem k links
                                   then damping_factor / len links else 0))).
  2:{ intros k Hk. unfold lookup. rewrite (Hval k Hk). unfold tm_value.
      destruct (mem k links); lra. }
  rewrite Qsum_plus, Qsum_const, len_keys.
  rewrite (Qsum_indicator (fun k => mem k links)).
  assert (Hfilter : Permutation (filter (fun k => mem k links) (Dict.keys corpus))
                                links).
  { apply NoDup_Permutation; [apply NoDup_filter, Hok | exact Hnd |].
    intros k. rewrite filter_In, mem_In. split; [tauto|].
    intros Hk. split; [apply Hincl, Hk | exact Hk]. }
  assert (Hlen : len (filter (fun k => mem k links) (Dict.keys corpus))
                 = len links).
  { unfold len. rewrite (Permutation_length Hfilter). reflexivity. }
  rewrite Hlen.
  destruct (Qeq_bool (len links) 0) eqn:Ez.
  - apply len_zero_nil in Ez. subst links.
    change (len (@nil page)) with 0. rewrite Qmult_0_r. field. lra.
  - apply Qeq_bool_neq in Ez. field. split; [exact Ez | lra].
Qed.

(** * Further properties of transition_model *)

Lemma transition_model_KeyError (corpus : Corpus) (page0 : page)
      (damping_factor : Q) :
  ~ In page0 (Dict.keys corpus) ->
  transition_model corpus page0 damping_factor = Raise KeyError.
Proof.
  intros H. apply get_None_keys in H.
  unfold transition_model, Dict.getitem at 1. rewrite H. reflexivity.
Qed.

(** X1: the only way [transition_model] fails is the lookup [corpus[page]]
    of line 61. It raises [KeyError] when the page is not a key of the
    corpus, and otherwise returns the distribution of line 79; it raises
    nothing else and never returns the corpus (line 68 is not reached). *)
Theorem transition_model_outcome (corpus : Corpus) (page0 : page)
        (damping_factor : Q) :
  match transition_model corpus page0 damping_factor with
  | Ret (TMDist _) => In page0 (Dict.keys corpus)
  | Ret (TMCorpus _) => False
  | Raise e => e = KeyError /\ ~ In page0 (Dict.keys corpus)
  | OutOfFuel => False
  end.
Proof.
  destruct (in_dec string_dec page0 (Dict.keys corpus)) as [Hin|Hnin].
  - destruct (transition_model_post corpus page0 damping_factor Hin)
      as [links [dist [_ [E _]]]].
    rewrite E. exact Hin.
  - rewrite (transition_model_KeyError corpus page0 damping_factor Hnin).
    split; [reflexivity | exact Hnin].
Qed.

(** X2: for a page of the corpus, the result of [transition_model] has
    distinct keys, which are the links of the page together with the pages
    of the corpus, and gives a page [k] of the corpus the value
    d/len(links) + (1 - d)/len(corpus) when the page links to [k], and
    (1 - d)/len(corpus) when it does not. *)
Theorem transition_model_entries (corpus : Corpus) (page0 : page)
        (damping_factor : Q) (links : list page) :
  dict_ok corpus ->
  Dict.get corpus page0 = Some links ->
  exists dist,
    transition_model corpus page0 damping_factor = Ret (TMDist dist)
    /\ dict_ok dist
    /\ (forall k, In k (Dict.keys dist)
                  <-> In k links \/ In k (Dict.keys corpus))
    /\ (forall k, In k (Dict.keys corpus) ->
                  Dict.get dist k
                  = Some (if mem k links
                          then damping_factor / len links
                               + (1 - damping_factor) / len corpus
                          else (1 - damping_factor) / len corpus)).
Proof.
  intros Hok Eget.
  assert (Hpage : In page0 (Dict.keys corpus)).
  { apply get_In_keys. eauto. }
  destruct (transition_model_values corpus page0 damping_factor links Hok Eget)
    as [dist [E Hval]].
  destruct (transition_model_post corpus page0 damping_factor Hpage)
    as [links' [dist' [Eget' [E' [Hkeys [Hdok _]]]]]].
  rewrite Eget in Eget'. injection Eget' as <-.
  rewrite E in E'. injection E' as <-.
  exists dist. split; [exact E|]. split; [exact Hdok|].
  split; [exact Hkeys|]. intros k Hk. apply (Hval k Hk).
Qed.

Lemma transition_model_entries_witness :
  exists dist,
    transition_model corpus_three "c"%string (17 # 20) = Ret (TMDist dist)
    /\ dict_ok dist
    /\ (forall k, In k (Dict.keys dist)
                  <-> In k ["a"%string] \/ In k (Dict.keys corpus_three))
    /\ (forall k, In k (Dict.keys corpus_three) ->
                  Dict.get dist k
                  = Some (if mem k ["a"%string]
                          then (17 # 20) / len ["a"%string]
                               + (1 - (17 # 20)) / len corpus_three
                          else (1 - (17 # 20)) / len corpus_three)).
Proof.
  apply (transition_model_entries corpus_three "c"%string (17 # 20)).
  - unfold dict_ok. simpl. repeat constructor; simpl; intuition discriminate.
  - reflexivity.
Defined.

(** X3: in exact arithmetic (numbers as rationals, without the rounding
    of floats), for a page whose links are distinct pages of the corpus,
    the values returned by [transition_model] sum to 1 when the page has a
    link and to 1 - d when it has none; with d in (0,1) every value is
    positive. *)
Theorem transition_model_mass (corpus : Corpus) (page0 : page)
        (damping_factor : Q) (links : list page) :
  dict_ok corpus ->
  Dict.get corpus page0 = Some links ->
  NoDup links -> incl links (Dict.keys corpus) ->
  exists dist,
    transition_model corpus page0 damping_factor = Ret (TMDist dist)
    /\ total dist == match links with
                     | [] => 1 - damping_factor
                     | _ :: _ => 1
                     end
    /\ (0 < damping_factor -> damping_factor < 1 ->
        Forall (fun v => 0 < v) (Dict.values dist)).
Proof.
  intros Hok Eget Hnd Hincl.
  assert (Hpage : In page0 (Dict.keys corpus)).
  { apply get_In_keys. eauto. }
  destruct (transition_model_total corpus page0 damping_factor links
              Hok Eget Hnd Hincl) as [dist [E Htot]].
  destruct (transition_model_post corpus page0 damping_factor Hpage)
    as [links' [dist' [_ [E' [_ [_ Hpos]]]]]].
  rewrite E in E'. injection E' as <-.
  exists dist. split; [exact E|]. split; [|exact Hpos].
  rewrite Htot. destruct links as [|l links]; reflexivity.
Qed.

Lemma transition_model_mass_witness :
  exists dist,
    transition_model corpus_three "c"%string (17 # 20) = Ret (TMDist dist)
    /\ total dist == 1
    /\ (0 < 17 # 20 -> 17 # 20 < 1 ->
        Forall (fun v => 0 < v) (Dict.values dist)).
Proof.
  apply (transition_model_mass corpus_three "c"%string (17 # 20) ["a"%string]).
  - unfold dict_ok. simpl. repeat constructor; simpl; intuition discriminate.
  - reflexivity.
  - repeat constructor. simpl. tauto.
  - intros k [<-|[]]. simpl. tauto.
Defined.

(** * Further properties of sample_pagerank *)

Lemma random_choices_In {A : Type} (population : list A) (weights : list Q)
      (g g' : rng) (x : A) :
  random_choices population weights g = Ret (x, g') -> In x population.
Proof.
  unfold random_choices.
  destruct (negb _); [discriminate|].
  destruct (rev (accumulate weights)) as [|tot rest]; [discriminate|].
  destruct (Qle_bool tot 0); [discriminate|].
  destruct (random g) as [u g1].
  destruct (nth_error population _) as [y|] eqn:En; [|discriminate].
  intros [= <- _]. eapply nth_error_In, En.
Qed.

Lemma sample_step_in_corpus (corpus : Corpus) (damping_factor : Q)
      (st st' : sample_state) :
  links_closed corpus ->
  sample_step corpus damping_factor st = Ret st' ->
  In (fst (fst st')) (Dict.keys corpus).
Proof.
  intros Hclosed. destruct st as [[page0 pagerank] g]. unfold sample_step.
  destruct (in_dec string_dec page0 (Dict.keys corpus)) as [Hin|Hnin].
  - destruct (transition_model_post corpus page0 damping_factor Hin)
      as [links [dist [Eget [E [Hkeys _]]]]].
    rewrite E; cbn [bind].
    destruct (random_choices (Dict.keys dist) (Dict.values dist) g)
      as [[page1 g1]| |] eqn:Ec; cbn [bind]; try discriminate.
    intros [= <-]. simpl.
    apply random_choices_In in Ec. apply Hkeys in Ec.
    destruct Ec as [Hl|Hk]; [|exact Hk].
    apply (Hclosed page0 links (get_In _ _ _ Eget)), Hl.
  - rewrite (transition_model_KeyError _ _ _ Hnin). discriminate.
Qed.

Lemma visits_in_corpus (corpus : Corpus) (damping_factor : Q) (k : nat) :
  links_closed corpus ->
  forall (st : sample_state) (vs : list page),
    visits_from k corpus damping_factor st = Ret vs ->
    incl vs (Dict.keys corpus).
Proof.
  intros Hclosed. induction k as [|k IH]; intros st vs H; cbn [visits_from] in H.
  - injection H as <-. intros p [].
  - apply bind_ret_inv in H. destruct H as [st1 [E1 H]].
    apply bind_ret_inv in H. destruct H as [rest [E2 H]].
    injection H as <-.
    intros p [<-|Hp].
    + eapply sample_step_in_corpus; eassumption.
    + eapply IH; eassumption.
Qed.

Lemma lookup_record_visit_same (pagerank : Distribution) (p : page) :
  lookup (record_visit pagerank p) p == lookup pagerank p + 1.
Proof.
  unfold record_visit, lookup.
  destruct (Dict.get pagerank p) as [c|]; rewrite get_set_same; lra.
Qed.

Lemma lookup_record_visit_other (pagerank : Distribution) (p q : page) :
  q <> p -> lookup (record_visit pagerank p) q = lookup pagerank q.
Proof.
  intros Hne. unfold record_visit, lookup.
  destruct (Dict.get pagerank p) as [c|];
    rewrite (get_set_other _ _ _ _ Hne); reflexivity.
Qed.

Lemma tally_lookup (vs : list page) (p : page) :
  forall pagerank : Distribution,
    lookup (fold_left record_visit vs pagerank) p
    == lookup pagerank p + visit_count p vs.
Proof.
  unfold visit_count.
  induction vs as [|v vs IH]; intros pagerank; cbn [fold_left].
  - simpl. change (inject_Z 0) with 0. lra.
  - rewrite IH. destruct (string_dec v p) as [->|Hne].
    + rewrite lookup_record_visit_same, count_occ_cons_eq by reflexivity.
      rewrite Nat2Z.inj_succ, <- Z.add_1_r, inject_Z_plus.
      change (inject_Z 1) with 1. unfold page in *. lra.
    + rewrite lookup_record_visit_other by congruence.
      rewrite count_occ_cons_neq by exact Hne. reflexivity.
Qed.

Lemma get_map_values (f : Q -> Q) (d : Distribution) (k : page) :
  Dict.get (map (fun kv => (fst kv, f (snd kv))) d) k
  = option_map f (Dict.get d k).
Proof.
  induction d as [|[k' v] d IH]; simpl; [reflexivity|].
  destruct (String.eqb k k'); [reflexivity | exact IH].
Qed.

(** X4: whenever [sample_pagerank] returns, the value it gives a recorded
    page is the number of times the loop drew that page, divided by n. *)
Theorem sample_pagerank_frequency (corpus : Corpus) (damping_factor : Q)
        (n : Z) (g : rng) (r : Distribution) :
  sample_pagerank corpus damping_factor n g = Ret r ->
  exists vs,
    visits corpus damping_factor n g = Ret vs
    /\ forall p, In p vs ->
                 exists v, Dict.get r p = Some v
                           /\ v == visit_count p vs / inject_Z n.
Proof.
  intros H.
  destruct (sample_pagerank_spec _ _ _ _ _ H) as [vs [Ev [El ->]]].
  exists vs. split; [exact Ev|]. intros p Hp.
  rewrite (get_map_values (fun v => v / inject_Z n)).
  assert (Hk : In p (Dict.keys (fold_left record_visit vs []))).
  { apply tally_keys. left; exact Hp. }
  apply get_In_keys in Hk. destruct Hk as [c Ec].
  rewrite Ec. simpl. eexists. split; [reflexivity|].
  pose proof (tally_lookup vs p []) as Hl.
  unfold lookup at 1 in Hl. rewrite Ec in Hl.
  change (lookup [] p) with 0 in Hl.
  rewrite Hl. apply Qmult_comp; [lra | reflexivity].
Qed.

Lemma sample_pagerank_frequency_witness :
  exists vs,
    visits corpus_pair (17 # 20) 4 [0%N; 0%N; 0%N; 0%N] = Ret vs
    /\ forall p, In p vs ->
                 exists v,
                   Dict.get [("b"%string, 2 # 4); ("a"%string, 1 # 4)] p = Some v
                   /\ v == visit_count p vs / inject_Z 4.
Proof.
  apply (sample_pagerank_frequency corpus_pair (17 # 20) 4%Z
                                   [0%N; 0%N; 0%N; 0%N]).
  vm_compute. reflexivity.
Defined.

(** X5: on a non-empty corpus whose links lead to pages of the corpus,
    with d in (0,1) and n >= 1, [sample_pagerank] returns and every key of
    the result is a page of the corpus; in exact arithmetic (numbers as
    rationals, without the rounding of floats) every value lies strictly
    between 0 and 1 and the values sum to (n - 1)/n. *)
Theorem sample_pagerank_result (corpus : Corpus) (damping_factor : Q)
        (n : Z) (g : rng) :
  corpus <> [] -> links_closed corpus ->
  0 < damping_factor -> damping_factor < 1 ->
  (1 <= n)%Z ->
  exists r,
    sample_pagerank corpus damping_factor n g = Ret r
    /\ incl (Dict.keys r) (Dict.keys corpus)
    /\ Forall (fun v => 0 < v /\ v < 1) (Dict.values r)
    /\ total r == (inject_Z n - 1) / inject_Z n.
Proof.
  intros Hne Hclosed Hd0 Hd1 Hn.
  destruct (sample_pagerank_returns corpus damping_factor n g
              Hne Hclosed Hd0 Hd1) as [r Hr].
  exists r. split; [exact Hr|].
  pose proof (sample_pagerank_mass _ _ _ _ _ Hn Hr) as Hmass.
  destruct (sample_pagerank_spec _ _ _ _ _ Hr) as [vs [Ev [El Er]]].
  split; [|split; [|exact Hmass]].
  - subst r. rewrite (keys_map_values (fun v => v / inject_Z n)).
    intros p Hp. apply tally_keys in Hp. destruct Hp as [Hp|[]].
    unfold visits in Ev. apply bind_ret_inv in Ev.
    destruct Ev as [[page0 g0] [_ Ev]].
    eapply visits_in_corpus; eassumption.
  - subst r. rewrite (values_map_values (fun v => v / inject_Z n)).
    apply Forall_map.
    pose proof (tally_ge1 vs [] (Forall_nil _)) as Hge.
    assert (Hpos : Forall (fun v => 0 < v)
                          (Dict.values (fold_left record_visit vs []))).
    { eapply Forall_impl; [|exact Hge]. intros v Hv. simpl in Hv. lra. }
    apply Forall_forall. intros v Hv.
    pose proof (value_le_total _ v Hpos Hv) as Hle.
    rewrite tally_total in Hle. change (total []) with 0 in Hle.
    unfold len in Hle. rewrite El, Z2Nat.id in Hle by lia.
    unfold Z.sub in Hle. rewrite inject_Z_plus in Hle.
    change (inject_Z (- (1))) with (- (1)) in Hle.
    rewrite Forall_forall in Hge. pose proof (Hge v Hv) as H1.
    assert (Hnpos : 0 < inject_Z n) by lra.
    split.
    + apply Qdiv_pos; lra.
    + apply Qlt_shift_div_r; lra.
Qed.

Lemma sample_pagerank_result_witness :
  exists r,
    sample_pagerank corpus_three (17 # 20) 3 [2%N; 0%N; 0%N] = Ret r
    /\ incl (Dict.keys r) (Dict.keys corpus_three)
    /\ Forall (fun v => 0 < v /\ v < 1) (Dict.values r)
    /\ total r == (inject_Z 3 - 1) / inject_Z 3.
Proof.
  apply (sample_pagerank_result corpus_three (17 # 20) 3%Z [2%N; 0%N; 0%N]).
  - discriminate.
  - intros p links H k Hk. simpl in H.
    destruct H as [H|[H|[H|[]]]]; injection H as <- <-;
      destruct Hk as [<-|[]]; simpl; tauto.
  - reflexivity.
  - reflexivity.
  - lia.
Defined.

(** * Further properties of the sweep of iterate_pagerank *)

Lemma Qsum_map {A B : Type} (f : B -> Q) (h : A -> B) (l : list A) :
  Qsum f (map h l) == Qsum (fun x => f (h x)) l.
Proof.
  induction l as [|x l IH]; simpl; [reflexivity|]. rewrite IH. reflexivity.
Qed.

Lemma total_sweep_diff (corpus : Corpus) (damping_factor : Q) (rank : Distribution) :
  total (sweep_diff corpus damping_factor rank)
  == sweep_change corpus damping_factor rank.
Proof.
  rewrite total_Qsum. unfold sweep_diff, sweep_change.
  rewrite Qsum_map. reflexivity.
Qed.

Lemma total_sweep_value (corpus : Corpus) (damping_factor : Q) (rank : Distribution) :
  total (sweep_value corpus damping_factor rank)
  == Qsum (fun kv => new_rank corpus damping_factor rank (fst kv)) corpus.
Proof.
  rewrite total_Qsum. unfold sweep_value. rewrite Qsum_map. reflexivity.
Qed.

(** X6: two sweeps in a row, as the loop of lines 130-146 runs them: the
    second sweep returns, and in exact arithmetic (numbers as rationals,
    without the rounding of floats) the sum of the changes it records in
    [d_diff] is at most the damping factor times the sum recorded by the
    first. *)
Theorem sweep_contracts (corpus : Corpus) (damping_factor : Q)
        (rank : Distribution) :
  corpus <> [] -> dict_ok corpus ->
  Dict.keys rank = Dict.keys corpus ->
  0 <= damping_factor ->
  exists d1 d_diff1 d2 d_diff2,
    sweep corpus damping_factor rank = Ret (d1, d_diff1)
    /\ sweep corpus damping_factor d1 = Ret (d2, d_diff2)
    /\ total d_diff2 <= damping_factor * total d_diff1.
Proof.
  intros Hne Hok Hkeys Hd.
  exists (sweep_value corpus damping_factor rank),
         (sweep_diff corpus damping_factor rank),
         (sweep_value corpus damping_factor
                      (sweep_value corpus damping_factor rank)),
         (sweep_diff corpus damping_factor
                     (sweep_value corpus damping_factor rank)).
  split; [apply sweep_computes; assumption|].
  split; [apply sweep_computes; [assumption | assumption | apply keys_sweep_value]|].
  rewrite !total_sweep_diff. apply sweep_change_contracts; assumption.
Qed.

Lemma sweep_contracts_witness :
  exists d1 d_diff1 d2 d_diff2,
    sweep corpus_chain (1 # 2) (initial_rank corpus_chain) = Ret (d1, d_diff1)
    /\ sweep corpus_chain (1 # 2) d1 = Ret (d2, d_diff2)
    /\ total d_diff2 <= (1 # 2) * total d_diff1.
Proof.
  apply (sweep_contracts corpus_chain (1 # 2) (initial_rank corpus_chain)).
  - discriminate.
  - unfold dict_ok. simpl. repeat constructor; simpl; intuition discriminate.
  - reflexivity.
  - discriminate.
Defined.

(** The pages of the corpus that are in a set of distinct links, all of
    them pages of the corpus, are as many as the links. *)
Lemma linked_pages_count (corpus : Corpus) (links : list page) :
  dict_ok corpus -> NoDup links -> incl links (Dict.keys corpus) ->
  len (filter (fun kv : page * list page => mem (fst kv) links) corpus)
  = len links.
Proof.
  intros Hok Hnd Hincl. unfold len. f_equal. f_equal.
  rewrite <- (length_map fst (filter _ corpus)).
  apply Permutation_length, NoDup_Permutation.
  - apply (NoDup_keys_filter _ corpus Hok).
  - exact Hnd.
  - intros k. split.
    + intros Hk. apply in_map_iff in Hk. destruct Hk as [kv [<- Hkv]].
      apply filter_In in Hkv. apply mem_In, Hkv.
    + intros Hk. pose proof (Hincl k Hk) as Hc.
      unfold Dict.keys in Hc. apply in_map_iff in Hc.
      destruct Hc as [kv [<- Hkv]].
      apply in_map, filter_In. split; [exact Hkv | apply mem_In, Hk].
Qed.

Lemma column_sum (corpus : Corpus) (links : list page) (x : Q) :
  dict_ok corpus -> NoDup links -> incl links (Dict.keys corpus) ->
  Qsum (fun kv : page * list page =>
          if mem (fst kv) links then x / len links else 0) corpus
  == (if Qeq_bool (len links) 0 then 0 else x).
Proof.
  intros Hok Hnd Hincl.
  rewrite (Qsum_indicator (fun kv : page * list page => mem (fst kv) links)).
  rewrite (linked_pages_count corpus links Hok Hnd Hincl).
  destruct (Qeq_bool (len links) 0) eqn:Ez.
  - apply len_zero_nil in Ez. subst links.
    change (len (@nil page)) with 0. lra.
  - apply Qeq_bool_neq in Ez. field. exact Ez.
Qed.

Lemma sweep_value_mass (corpus : Corpus) (damping_factor : Q)
      (rank : Distribution) :
  corpus <> [] -> dict_ok corpus -> links_closed corpus -> sets_ok corpus ->
  total (sweep_value corpus damping_factor rank)
  == (1 - damping_factor) + damping_factor * Qsum (passed_on rank) corpus.
Proof.
  intros Hne Hok Hclosed Hsets.
  pose proof (len_pos corpus Hne) as HN.
  rewrite total_sweep_value.
  rewrite (Qsum_ext _ (fun kv =>
             (1 - damping_factor) / len corpus
             + (damping_factor * Qsum (fun item => link_share rank (fst kv) item) corpus
                + damping_factor * Qsum (dangling_share corpus) corpus))).
  2:{ intros kv _. rewrite new_rank_formula, <- Qplus_assoc. reflexivity. }
  rewrite Qsum_plus, Qsum_plus, Qsum_const, Qsum_scale, Qsum_const, Qsum_swap.
  rewrite (Qsum_ext (fun y => Qsum (fun x => link_share rank (fst x) y) corpus)
                    (fun item => if Qeq_bool (len (snd item)) 0
                                 then 0 else lookup rank (fst item))).
  2:{ intros item Hitem. unfold link_share.
      apply column_sum; [exact Hok | |].
      - unfold sets_ok in Hsets. rewrite Forall_forall in Hsets.
        apply (Hsets item Hitem).
      - destruct item as [i links]. apply (Hclosed i links Hitem). }
  assert (E : damping_factor * Qsum (dangling_share corpus) corpus * len corpus
              == damping_factor
                 * Qsum (fun item : page * list page =>
                           if Qeq_bool (len (snd item)) 0 then 1 else 0) corpus).
  { rewrite <- Qmult_assoc. apply Qmult_comp; [reflexivity|].
    rewrite Qmult_comm, <- Qsum_scale. apply Qsum_ext.
    intros item _. unfold dangling_share.
    destruct (Qeq_bool (len (snd item)) 0); [field; lra | lra]. }
  rewrite E.
  assert (E2 : Qsum (passed_on rank) corpus
               == Qsum (fun item : page * list page =>
                          if Qeq_bool (len (snd item)) 0
                          then 0 else lookup rank (fst item)) corpus
                  + Qsum (fun item : page * list page =>
                            if Qeq_bool (len (snd item)) 0 then 1 else 0) corpus).
  { rewrite <- Qsum_plus. apply Qsum_ext. intros item _. unfold passed_on.
    destruct (Qeq_bool (len (snd item)) 0); lra. }
  rewrite E2.
  assert (E3 : (1 - damping_factor) / len corpus * len corpus
               == 1 - damping_factor) by (field; lra).
  rewrite E3. lra.
Qed.

(** X7: in exact arithmetic (numbers as rationals, without the rounding
    of floats), in a corpus whose links are distinct and lead to pages of
    the corpus, the ranks after a sweep sum to (1 - d) + d * (what the
    pages pass on), where a page with links passes on its rank before the
    sweep and a page without links passes on 1. *)
Theorem sweep_mass (corpus : Corpus) (damping_factor : Q) (rank : Distribution) :
  corpus <> [] -> dict_ok corpus -> links_closed corpus -> sets_ok corpus ->
  Dict.keys rank = Dict.keys corpus ->
  exists d1 d_diff,
    sweep corpus damping_factor rank = Ret (d1, d_diff)
    /\ total d1
       == (1 - damping_factor) + damping_factor * Qsum (passed_on rank) corpus.
Proof.
  intros Hne Hok Hclosed Hsets Hkeys.
  exists (sweep_value corpus damping_factor rank),
         (sweep_diff corpus damping_factor rank).
  split; [apply sweep_computes; assumption|].
  apply sweep_value_mass; assumption.
Qed.

Lemma corpus_chain_closed : links_closed corpus_chain.
Proof.
  intros p links H k Hk. simpl in H.
  destruct H as [H|[H|[]]]; injection H as <- <-.
  - destruct Hk as [<-|[]]. simpl. tauto.
  - destruct Hk.
Qed.

Lemma sweep_mass_witness :
  exists d1 d_diff,
    sweep corpus_chain (1 # 2) (initial_rank corpus_chain) = Ret (d1, d_diff)
    /\ total d1
       == (1 - (1 # 2))
          + (1 # 2) * Qsum (passed_on (initial_rank corpus_chain)) corpus_chain.
Proof.
  apply (sweep_mass corpus_chain (1 # 2) (initial_rank corpus_chain)).
  - discriminate.
  - unfold dict_ok. simpl. repeat constructor; simpl; intuition discriminate.
  - exact corpus_chain_closed.
  - repeat constructor; simpl; tauto.
  - reflexivity.
Defined.

Lemma Qsum_div {A : Type} (f : A -> Q) (c : Q) (l : list A) :
  Qsum (fun x => f x / c) l == Qsum f l / c.
Proof.
  unfold Qdiv. induction l as [|x l IH]; simpl; [ring|]. rewrite IH. ring.
Qed.

Lemma lookup_scaled (c : Q) (rank : Distribution) (k : page) :
  lookup (map (fun kv => (fst kv, snd kv / c)) rank) k == lookup rank k / c.
Proof.
  unfold lookup. rewrite (get_map_values (fun v => v / c)).
  destruct (Dict.get rank k) as [v|]; simpl; [reflexivity|].
  unfold Qdiv. ring.
Qed.

Lemma total_over_corpus (corpus : Corpus) (rank : Distribution) :
  dict_ok corpus -> Dict.keys rank = Dict.keys corpus ->
  total rank == Qsum (fun item => lookup rank (fst item)) corpus.
Proof.
  intros Hok Hkeys.
  rewrite total_by_keys by (unfold dict_ok; rewrite Hkeys; exact Hok).
  rewrite Hkeys. unfold Dict.keys. apply Qsum_map.
Qed.

Lemma corpus_pair_closed : links_closed corpus_pair.
Proof.
  intros p links H k Hk. simpl in H.
  destruct H as [H|[H|[]]]; injection H as <- <-;
    destruct Hk as [<-|[]]; simpl; tauto.
Qed.


(** * crawl *)

Lemma substring_all (s : string) : substring 0 (String.length s) s = s.
Proof.
  induction s as [|c s IH]; simpl; [reflexivity|]. rewrite IH. reflexivity.
Qed.

Lemma substring_split (s : string) :
  forall k : nat,
    (k <= String.length s)%nat ->
    s = (substring 0 k s ++ substring k (String.length s - k) s)%string.
Proof.
  induction s as [|c s IH]; intros k Hk.
  - destruct k; [reflexivity | simpl in Hk; lia].
  - destruct k as [|k].
    + change (substring 0 0 (String c s)) with EmptyString.
      rewrite Nat.sub_0_r, substring_all. reflexivity.
    + simpl in Hk. simpl. rewrite <- (IH k) by lia. reflexivity.
Qed.

Lemma substring_append_suffix (pre suf : string) :
  substring (String.length pre) (String.length suf) (pre ++ suf) = suf.
Proof.
  induction pre as [|c pre IH]; simpl; [apply substring_all | exact IH].
Qed.

Lemma string_length_append (a b : string) :
  String.length (a ++ b) = (String.length a + String.length b)%nat.
Proof.
  induction a as [|c a IH]; simpl; [reflexivity|]. rewrite IH. reflexivity.
Qed.

(** [endswith] is the suffix test of Python. *)
Lemma endswith_spec (s suffix : string) :
  endswith s suffix = true <-> exists pre, s = (pre ++ suffix)%string.
Proof.
  unfold endswith. split.
  - intros H. apply andb_true_iff in H. destruct H as [Hle Heq].
    apply Nat.leb_le in Hle. apply String.eqb_eq in Heq.
    exists (substring 0 (String.length s - String.length suffix) s).
    pose proof (substring_split s (String.length s - String.length suffix)
                  ltac:(lia)) as Hs.
    replace (String.length s - (String.length s - String.length suffix))%nat
      with (String.length suffix) in Hs by lia.
    rewrite Heq in Hs. exact Hs.
  - intros [pre ->]. rewrite string_length_append.
    apply andb_true_iff. split; [apply Nat.leb_le; lia|].
    apply String.eqb_eq.
    replace (String.length pre + String.length suffix - String.length suffix)%nat
      with (String.length pre) by lia.
    apply substring_append_suffix.
Qed.

Lemma set_of_In (l : list page) (x : page) : In x (set_of l) <-> In x l.
Proof. apply nodup_In. Qed.

Lemma set_of_NoDup (l : list page) : NoDup (set_of l).
Proof. apply NoDup_nodup. Qed.

Lemma set_minus_In (s t : list page) (x : page) :
  In x (set_minus s t) <-> In x s /\ ~ In x t.
Proof.
  unfold set_minus. rewrite filter_In, negb_true_iff, mem_false_In. tauto.
Qed.

(** The loop of lines 33-39. *)
Lemma crawl_scan (findall : string -> list string)
      (directory : list (string * string)) :
  forall pre : Corpus,
    NoDup (map fst directory) ->
    (forall k, In k (Dict.keys pre) -> ~ In k (map fst directory)) ->
    foreach directory pre
      (fun entry pages =>
         let '(filename, contents) := entry in
         if negb (endswith filename ".html") then Ret pages
         else
           let links := findall contents in
           Ret (Dict.set pages filename (set_minus (set_of links) [filename])))
    = Ret (pre ++ map (fun entry =>
                         (fst entry,
                          set_minus (set_of (findall (snd entry))) [fst entry]))
                      (html_entries directory)).
Proof.
  induction directory as [|[f c] directory IH]; intros pre Hnd Hd.
  - simpl. rewrite app_nil_r. reflexivity.
  - match goal with |- foreach _ _ ?b = _ => set (body := b) in * end.
    cbn [foreach]. unfold body at 1; cbv beta iota.
    unfold html_entries. cbn [filter fst].
    simpl in Hnd. inversion Hnd as [|? ? Hnf Hnd']; subst.
    destruct (endswith f ".html"); cbn [negb bind].
    + rewrite set_absent by (intros Hx; apply (Hd f Hx); left; reflexivity).
      rewrite IH.
      * rewrite <- app_assoc. reflexivity.
      * exact Hnd'.
      * intros x Hx. rewrite keys_app, in_app_iff in Hx. simpl in Hx.
        destruct Hx as [Hx|[<-|[]]]; [|exact Hnf].
        intros Hs. apply (Hd x Hx). right; exact Hs.
    + apply IH; [exact Hnd'|].
      intros x Hx Hs. apply (Hd x Hx). right; exact Hs.
Qed.

(** The loop of lines 42-46. *)
Lemma crawl_filter (K : list page) (suf : Corpus) :
  forall pre : Corpus,
    Dict.keys (pre ++ suf) = K ->
    NoDup (Dict.keys suf) ->
    (forall k, In k (Dict.keys pre) -> ~ In k (Dict.keys suf)) ->
    foreach (Dict.keys suf) (pre ++ suf)
      (fun filename pages =>
         links <- Dict.getitem pages filename ;;
         Ret (Dict.set pages filename
                       (filter (fun link => mem link (Dict.keys pages)) links)))
    = Ret (pre ++ map (fun kv => (fst kv,
                                  filter (fun link => mem link K) (snd kv)))
                      suf).
Proof.
  induction suf as [|[k v] suf IH]; intros pre HK Hnd Hd.
  - simpl. reflexivity.
  - match goal with |- foreach _ _ ?b = _ => set (body := b) in * end.
    change (Dict.keys ((k, v) :: suf)) with (k :: Dict.keys suf) in *.
    cbn [foreach]. unfold body at 1.
    assert (Hk : ~ In k (Dict.keys pre)).
    { intros Hx. apply (Hd k Hx). left; reflexivity. }
    unfold Dict.getitem. rewrite (get_app_head pre k v suf Hk); cbn [bind].
    rewrite HK, (set_app_head pre k v _ suf Hk).
    inversion Hnd as [|? ? Hnk Hnd']; subst.
    change (pre ++ (k, filter (fun link => mem link (Dict.keys (pre ++ (k, v) :: suf))) v) :: suf)
      with (pre ++ [(k, filter (fun link => mem link (Dict.keys (pre ++ (k, v) :: suf))) v)] ++ suf).
    rewrite app_assoc, IH.
    + rewrite <- app_assoc. reflexivity.
    + rewrite !keys_app. simpl. rewrite <- app_assoc. reflexivity.
    + exact Hnd'.
    + intros x Hx. rewrite keys_app, in_app_iff in Hx. simpl in Hx.
      destruct Hx as [Hx|[<-|[]]]; [|exact Hnk].
      intros Hs. apply (Hd x Hx). right; exact Hs.
Qed.

Lemma html_entries_names (directory : list (string * string)) :
  NoDup (map fst directory) -> NoDup (map fst (html_entries directory)).
Proof.
  unfold html_entries.
  induction directory as [|e directory IH]; simpl; intros H; [constructor|].
  inversion H as [|? ? Hn Hd]; subst.
  destruct (endswith (fst e) ".html"); simpl; [|apply IH, Hd].
  constructor; [|apply IH, Hd].
  intros Hin. apply Hn. apply in_map_iff in Hin. destruct Hin as [x [Ex Hx]].
  apply filter_In in Hx. rewrite <- Ex. apply in_map, Hx.
Qed.

Lemma keys_crawl_value (findall : string -> list string)
      (directory : list (string * string)) :
  Dict.keys (crawl_value findall directory) = map fst (html_entries directory).
Proof.
  unfold crawl_value, Dict.keys. rewrite map_map. reflexivity.
Qed.

Lemma crawl_computes (findall : string -> list string)
      (directory : list (string * string)) :
  NoDup (map fst directory) ->
  crawl findall directory = Ret (crawl_value findall directory).
Proof.
  intros Hnd. unfold crawl.
  pose proof (crawl_scan findall directory [] Hnd) as Hscan.
  cbv zeta in Hscan |- *. rewrite Hscan by (intros k []).
  cbn [bind app].
  set (pages := map (fun entry : page * string =>
                       (fst entry,
                        set_minus (set_of (findall (snd entry))) [fst entry]))
                    (html_entries directory)).
  assert (Hkeys : Dict.keys pages = map fst (html_entries directory)).
  { unfold pages, Dict.keys. rewrite map_map. reflexivity. }
  pose proof (crawl_filter (map fst (html_entries directory)) pages [] Hkeys)
    as Hfilter.
  cbn [app] in Hfilter.
  refine (eq_trans (Hfilter _ _) _).
  - rewrite Hkeys. apply html_entries_names, Hnd.
  - intros k [].
  - unfold pages, crawl_value. rewrite map_map. reflexivity.
Qed.

Lemma get_NoDup_In {V : Type} (d : Dict.t V) (k : page) (v : V) :
  dict_ok d -> In (k, v) d -> Dict.get d k = Some v.
Proof.
  unfold dict_ok. induction d as [|[k' v'] d IH]; simpl; intros Hnd Hin;
    [destruct Hin|].
  inversion Hnd as [|? ? Hn Hd]; subst.
  destruct Hin as [[= -> ->]|Hin].
  - rewrite String.eqb_refl. reflexivity.
  - destruct (String.eqb_spec k k') as [->|Hne].
    + exfalso. apply Hn. apply (In_keys (k', v) d Hin).
    + apply IH; assumption.
Qed.

Lemma html_entries_In (directory : list (string * string)) (f : string) :
  In f (map fst (html_entries directory))
  <-> In f (map fst directory) /\ endswith f ".html" = true.
Proof.
  unfold html_entries. rewrite !in_map_iff. split.
  - intros [e [<- He]]. apply filter_In in He. destruct He as [He Hs].
    split; [exists e; auto | exact Hs].
  - intros [[e [<- He]] Hs]. exists e. split; [reflexivity|].
    apply filter_In. auto.
Qed.

Lemma crawl_value_ok (findall : string -> list string)
      (directory : list (string * string)) :
  NoDup (map fst directory) -> dict_ok (crawl_value findall directory).
Proof.
  intros Hnd. unfold dict_ok. rewrite keys_crawl_value.
  apply html_entries_names, Hnd.
Qed.

Lemma crawl_value_links (findall : string -> list string)
      (directory : list (string * string)) (f : string) (links : list page) :
  In (f, links) (crawl_value findall directory) ->
  exists contents,
    In (f, contents) directory
    /\ endswith f ".html" = true
    /\ NoDup links
    /\ forall l, In l links
                 <-> In l (findall contents) /\ l <> f
                     /\ In l (Dict.keys (crawl_value findall directory)).
Proof.
  intros Hin. unfold crawl_value in Hin. apply in_map_iff in Hin.
  destruct Hin as [[f' contents] [E He]]. simpl in E.
  injection E as -> <-.
  unfold html_entries in He. apply filter_In in He. destruct He as [He Hs].
  exists contents. split; [exact He|]. split; [exact Hs|]. split.
  - apply NoDup_filter. unfold set_minus. apply NoDup_filter, set_of_NoDup.
  - intros l. rewrite filter_In, set_minus_In, set_of_In, mem_In.
    rewrite keys_crawl_value. simpl. split.
    + intros [[Hl Hne] Hk]. split; [exact Hl|]. split; [|exact Hk].
      intros ->. apply Hne. left; reflexivity.
    + intros [Hl [Hne Hk]]. split; [|exact Hk]. split; [exact Hl|].
      intros [->|[]]. apply Hne. reflexivity.
Qed.

Lemma crawl_value_closed (findall : string -> list string)
      (directory : list (string * string)) :
  links_closed (crawl_value findall directory).
Proof.
  intros f links Hin l Hl.
  destruct (crawl_value_links findall directory f links Hin)
    as [contents [_ [_ [_ H]]]].
  apply H in Hl. tauto.
Qed.

Lemma crawl_value_sets (findall : string -> list string)
      (directory : list (string * string)) :
  sets_ok (crawl_value findall directory).
Proof.
  unfold sets_ok. apply Forall_forall. intros [f links] Hin.
  destruct (crawl_value_links findall directory f links Hin)
    as [contents [_ [_ [H _]]]].
  exact H.
Qed.

Lemma example_directory_names : NoDup (map fst example_directory).
Proof.
  simpl. repeat constructor; simpl; intuition discriminate.
Qed.

(** X10: in the corpus [crawl] returns, the links of a page are distinct
    and are exactly the links found in its text that are not the page
    itself and are pages of the corpus: links to anything else are
    dropped, and no page links to itself. *)
Theorem crawl_links (findall : string -> list string)
        (directory : list (string * string)) (f contents : string) :
  NoDup (map fst directory) ->
  In (f, contents) directory ->
  endswith f ".html" = true ->
  exists corpus links,
    crawl findall directory = Ret corpus
    /\ Dict.get corpus f = Some links
    /\ NoDup links
    /\ forall l, In l links
                 <-> In l (findall contents) /\ l <> f
                     /\ In l (Dict.keys corpus).
Proof.
  intros Hnd Hin Hs.
  set (links := filter (fun link => mem link (map fst (html_entries directory)))
                       (set_minus (set_of (findall contents)) [f])).
  assert (Hc : In (f, links) (crawl_value findall directory)).
  { unfold crawl_value. apply in_map_iff. exists (f, contents).
    split; [reflexivity|]. unfold html_entries. apply filter_In. auto. }
  exists (crawl_value findall directory), links.
  split; [apply crawl_computes, Hnd|].
  split; [apply get_NoDup_In; [apply crawl_value_ok, Hnd | exact Hc]|].
  destruct (crawl_value_links findall directory f links Hc)
    as [contents' [Hin' [_ [Hnl Hl]]]].
  assert (contents' = contents).
  { clear - Hnd Hin Hin'. induction directory as [|[f0 c0] directory IH];
      [destruct Hin|].
    simpl in Hnd. inversion Hnd as [|? ? Hn Hd]; subst.
    destruct Hin as [[= -> ->]|Hin]; destruct Hin' as [[= ->]|Hin'].
    - reflexivity.
    - exfalso. apply Hn. apply (in_map fst _ _ Hin').
    - exfalso. apply Hn. apply (in_map fst _ _ Hin).
    - apply IH; assumption. }
  subst contents'. split; [exact Hnl | exact Hl].
Qed.

Lemma crawl_links_witness :
  exists corpus links,
    crawl example_findall example_directory = Ret corpus
    /\ Dict.get corpus "2.html"%string = Some links
    /\ NoDup links
    /\ forall l, In l links
                 <-> In l (example_findall "3x") /\ l <> "2.html"%string
                     /\ In l (Dict.keys corpus).
Proof.
  apply (crawl_links example_findall example_directory "2.html"%string
                     "3x"%string).
  - exact example_directory_names.
  - simpl. tauto.
  - reflexivity.
Defined.

(** * crawl followed by the two engines, as in main (lines 13-18) *)

Lemma iterate_pagerank_exists (corpus : Corpus) (damping_factor : Q) :
  corpus <> [] -> dict_ok corpus ->
  0 < damping_factor -> damping_factor < 1 ->
  exists fuel r,
    iterate_pagerank fuel corpus damping_factor = Ret r
    /\ Dict.keys r = Dict.keys corpus
    /\ total r == 1.
Proof.
  intros Hne Hok Hd0 Hd1.
  destruct (enough_sweeps
              (sweep_change corpus damping_factor (initial_rank corpus))
              threshold (1 - damping_factor)) as [m Hm];
    [reflexivity | lra |].
  destruct (iterate_loop_terminates corpus damping_factor Hne Hok Hd0 Hd1
              m (initial_rank corpus) (keys_initial_rank corpus) Hm)
    as [d1 Eloop].
  destruct (iterate_loop_result corpus damping_factor (S m) Hne Hok
              (Qlt_le_weak _ _ Hd0) Hd1 _ _ (keys_initial_rank corpus)
              (values_pos_nonneg _ (initial_rank_pos corpus Hne)) Eloop)
    as [Hk1 Hpos1].
  assert (Hne1 : d1 <> []).
  { intros ->. destruct corpus; [congruence | discriminate]. }
  assert (Hok1 : dict_ok d1) by (unfold dict_ok; rewrite Hk1; exact Hok).
  destruct (normalize_distribution d1 Hne1 Hok1 Hpos1)
    as [r [Er [Hkr [Htot _]]]].
  exists (S m), r. split; [|split; [congruence | exact Htot]].
  unfold iterate_pagerank.
  rewrite (initial_computes corpus Hne Hok); cbn [bind].
  rewrite Eloop; cbn [bind]. exact Er.
Qed.

(** X12: a directory without any name ending in ".html" gives the empty
    corpus: [crawl] returns [{}], on which [sample_pagerank] fails with
    the [IndexError] of [random.choice] (line 94) and [iterate_pagerank]
    returns [{}]. *)
Theorem crawl_without_pages (findall : string -> list string)
        (directory : list (string * string)) (damping_factor : Q)
        (n : Z) (g : rng) (fuel : nat) :
  NoDup (map fst directory) ->
  html_entries directory = [] ->
  crawl findall directory = Ret []
  /\ sample_pagerank [] damping_factor n g = Raise IndexError
  /\ iterate_pagerank (S fuel) [] damping_factor = Ret [].
Proof.
  intros Hnd Hhtml. split; [|split; reflexivity].
  rewrite (crawl_computes findall directory Hnd).
  unfold crawl_value. rewrite Hhtml. reflexivity.
Qed.

Lemma crawl_without_pages_witness :
  crawl example_findall [("notes.txt", "12"); ("a.htm", "1")]%string = Ret []
  /\ sample_pagerank [] (17 # 20) 10000 [] = Raise IndexError
  /\ iterate_pagerank 1 [] (17 # 20) = Ret [].
Proof.
  apply (crawl_without_pages example_findall
           [("notes.txt", "12"); ("a.htm", "1")]%string (17 # 20) 10000%Z [] 0%nat).
  - simpl. repeat constructor; simpl; intuition discriminate.
  - reflexivity.
Defined.

(** * The ranks returned by iterate_pagerank and the PageRank recurrence *)

Lemma len_ge1 {A : Type} (l : list A) : l <> [] -> 1 <= len l.
Proof.
  intros Hl. unfold len. change 1 with (inject_Z 1). rewrite <- Zle_Qle.
  destruct l; [congruence | simpl; lia].
Qed.

(** After a sweep from [rank] and the final normalisation, the ranks miss
    the recurrence of the specification by at most 2 d E / (1 - d), where
    E is the total change of the sweep. *)
Lemma normalized_sweep_residual (corpus : Corpus) (damping_factor : Q)
      (rank : Distribution) (p : page) :
  corpus <> [] -> dict_ok corpus -> links_closed corpus -> sets_ok corpus ->
  Dict.keys rank = Dict.keys corpus ->
  nonneg_rank rank ->
  0 <= damping_factor -> damping_factor < 1 ->
  In p (Dict.keys corpus) ->
  Qabs (lookup (map (fun kv => (fst kv,
                       snd kv / sum_pagerank_of
                                  (sweep_value corpus damping_factor rank)))
                    (sweep_value corpus damping_factor rank)) p
        - spec_new_rank corpus damping_factor
            (map (fun kv => (fst kv,
                    snd kv / sum_pagerank_of
                               (sweep_value corpus damping_factor rank)))
                 (sweep_value corpus damping_factor rank)) p)
  <= 2 * damping_factor * sweep_change corpus damping_factor rank
     / (1 - damping_factor).
Proof.
  intros Hne Hok Hclosed Hsets Hkeys Hnonneg Hd0 Hd1 Hp.
  pose proof (len_pos corpus Hne) as HN.
  pose proof (len_ge1 corpus Hne) as HN1.
  set (r1 := sweep_value corpus damping_factor rank).
  set (S := sum_pagerank_of r1).
  assert (Hk1 : Dict.keys r1 = Dict.keys corpus) by apply keys_sweep_value.
  pose proof (sum_pagerank_total r1) as HS0. fold S in HS0.
  set (Dc := Qsum (fun item : page * list page =>
                     if Qeq_bool (len (snd item)) 0 then 1 else 0) corpus).
  set (ND := fun x : Distribution =>
               Qsum (fun item : page * list page =>
                       if Qeq_bool (len (snd item)) 0
                       then 0 else lookup x (fst item)) corpus).
  set (RD := fun x : Distribution =>
               Qsum (fun item : page * list page =>
                       if Qeq_bool (len (snd item)) 0
                       then lookup x (fst item) else 0) corpus).
  set (E := sweep_change corpus damping_factor rank).
  assert (HP : Qsum (passed_on rank) corpus == Dc + ND rank).
  { unfold Dc, ND. rewrite <- Qsum_plus. apply Qsum_ext. intros item _.
    unfold passed_on. destruct (Qeq_bool (len (snd item)) 0); lra. }
  assert (HS : S == (1 - damping_factor) + damping_factor * (Dc + ND rank)).
  { rewrite <- HP, HS0. apply sweep_value_mass; assumption. }
  assert (HS2 : S == RD r1 + ND r1).
  { rewrite HS0, (total_over_corpus corpus r1 Hok Hk1).
    unfold RD, ND. rewrite <- Qsum_plus. apply Qsum_ext. intros item _.
    cbv beta. destruct (Qeq_bool (len (snd item)) 0); lra. }
  assert (HDc : 0 <= Dc).
  { apply Qsum_nonneg. intros item _.
    destruct (Qeq_bool (len (snd item)) 0); lra. }
  assert (HNDr : 0 <= ND rank).
  { apply Qsum_nonneg. intros item _.
    destruct (Qeq_bool (len (snd item)) 0); [lra | apply Hnonneg]. }
  assert (HSge : 1 - damping_factor <= S).
  { rewrite HS.
    assert (0 <= damping_factor * (Dc + ND rank))
      by (apply Qmult_le_0_compat; lra).
    lra. }
  assert (HE0 : 0 <= E).
  { apply Qsum_nonneg. intros kv _. apply Qabs_nonneg. }
  assert (HX : Qabs (ND r1 - ND rank) <= E).
  { unfold ND. rewrite <- Qsum_minus.
    eapply Qle_trans; [apply Qabs_Qsum|].
    apply Qsum_le. intros item Hitem. cbv beta.
    destruct (Qeq_bool (len (snd item)) 0).
    - setoid_replace (0 - 0) with 0 by ring. apply Qabs_nonneg.
    - unfold r1. rewrite (lookup_sweep_value _ _ _ _ (In_keys _ _ Hitem)).
      rewrite Qabs_Qminus. apply Qle_refl. }
  set (A := Qsum (link_share rank p) corpus).
  set (A1 := Qsum (link_share r1 p) corpus).
  assert (HY : Qabs (A - A1) <= E).
  { unfold A, A1. rewrite <- Qsum_minus.
    eapply Qle_trans; [apply Qabs_Qsum|].
    apply Qsum_le. intros item Hitem. cbv beta.
    unfold r1. rewrite (link_share_diff corpus damping_factor rank p item Hitem).
    destruct (mem p (snd item)) eqn:Em; [|apply Qabs_nonneg].
    apply mem_In in Em.
    pose proof (len_ge1 _ (In_nonempty _ _ Em)) as Hl.
    set (delta := Qabs _).
    assert (Hdelta : 0 <= delta) by apply Qabs_nonneg.
    apply Qle_shift_div_r; [lra|]. nra. }
  set (rn := map (fun kv : page * Q => (fst kv, snd kv / S)) r1).
  assert (EA : Qsum (link_share rn p) corpus == A1 / S).
  { unfold A1. rewrite <- Qsum_div. apply Qsum_ext. intros item _.
    unfold link_share, rn. destruct (mem p (snd item)) eqn:Em.
    - rewrite lookup_scaled. apply mem_In in Em.
      pose proof (len_pos _ (In_nonempty _ _ Em)). field. lra.
    - unfold Qdiv. ring. }
  assert (ED : Qsum (spec_dangling_share corpus rn) corpus
               == RD r1 / S / len corpus).
  { unfold RD. rewrite <- !Qsum_div. apply Qsum_ext. intros item _.
    unfold spec_dangling_share, rn.
    destruct (Qeq_bool (len (snd item)) 0).
    - rewrite lookup_scaled. reflexivity.
    - unfold Qdiv. ring. }
  assert (EC : Qsum (dangling_share corpus) corpus == Dc / len corpus).
  { unfold Dc. rewrite <- Qsum_div. apply Qsum_ext. intros item _.
    unfold dangling_share.
    destruct (Qeq_bool (len (snd item)) 0); [reflexivity|].
    unfold Qdiv. ring. }
  assert (Hres : lookup rn p - spec_new_rank corpus damping_factor rn p
                 == (damping_factor * (ND r1 - ND rank) / len corpus
                     + damping_factor * (A - A1)) / S).
  { unfold rn at 1. rewrite lookup_scaled. unfold spec_new_rank.
    rewrite EA, ED. unfold r1 at 1. rewrite (lookup_sweep_value _ _ _ _ Hp).
    rewrite new_rank_formula, EC. fold A.
    set (N := len corpus) in *.
    assert (H1 : (1 - damping_factor) + damping_factor * (Dc + ND rank) - S == 0)
      by lra.
    assert (H2 : S - RD r1 - ND r1 == 0) by lra.
    assert (Eq : ((1 - damping_factor) / N + damping_factor * A
                  + damping_factor * (Dc / N)) / S
                 - ((1 - damping_factor) / N + damping_factor * (A1 / S)
                    + damping_factor * (RD r1 / S / N))
                 == (damping_factor * (ND r1 - ND rank) / N
                     + damping_factor * (A - A1)) / S
                    + (((1 - damping_factor)
                        + damping_factor * (Dc + ND rank) - S)
                       + damping_factor * (S - RD r1 - ND r1)) / (N * S)).
    { field. split; lra. }
    rewrite Eq, H1, H2. unfold Qdiv. ring. }
  fold r1 S rn. rewrite Hres.
  apply Qabs_Qle_condition in HX. apply Qabs_Qle_condition in HY.
  set (X := ND r1 - ND rank) in *. set (Y := A - A1) in *.
  set (N := len corpus) in *.
  assert (HXN : - E <= X / N /\ X / N <= E).
  { split.
    - apply Qle_shift_div_l; [exact HN|]. nra.
    - apply Qle_shift_div_r; [exact HN|]. nra. }
  assert (Hnum : - (2 * damping_factor * E)
                 <= damping_factor * X / N + damping_factor * Y
                 /\ damping_factor * X / N + damping_factor * Y
                    <= 2 * damping_factor * E).
  { assert (Eq : damping_factor * X / N + damping_factor * Y
                 == damping_factor * (X / N + Y)) by (field; lra).
    rewrite Eq.
    assert (Hlo : damping_factor * (- (2 * E)) <= damping_factor * (X / N + Y))
      by (apply Qmult_le_l_nonneg; lra).
    assert (Hhi : damping_factor * (X / N + Y) <= damping_factor * (2 * E))
      by (apply Qmult_le_l_nonneg; lra).
    split; lra. }
  set (num := damping_factor * X / N + damping_factor * Y) in *.
  set (B := 2 * damping_factor * E / (1 - damping_factor)).
  assert (HB0 : 0 <= B).
  { unfold B. apply Qle_shift_div_l; [lra|]. rewrite Qmult_0_l.
    assert (0 <= damping_factor * E) by (apply Qmult_le_0_compat; lra). lra. }
  assert (HBd : B * (1 - damping_factor) == 2 * damping_factor * E)
    by (unfold B; field; lra).
  assert (HBS : B * (1 - damping_factor) <= B * S)
    by (apply Qmult_le_l_nonneg; assumption).
  assert (HSpos : 0 < S) by lra.
  apply Qabs_Qle_condition. split.
  - apply Qle_shift_div_l; [exact HSpos|]. lra.
  - apply Qle_shift_div_r; [exact HSpos|]. lra.
Qed.

(** What the loop returns is the outcome of a sweep that recorded no
    change above the threshold. *)
Lemma iterate_loop_exit (corpus : Corpus) (damping_factor : Q) (fuel : nat) :
  corpus <> [] -> dict_ok corpus ->
  0 <= damping_factor -> damping_factor < 1 ->
  forall rank r : Distribution,
    Dict.keys rank = Dict.keys corpus ->
    nonneg_rank rank ->
    iterate_loop fuel corpus damping_factor rank = Ret r ->
    exists prev,
      Dict.keys prev = Dict.keys corpus
      /\ nonneg_rank prev
      /\ r = sweep_value corpus damping_factor prev
      /\ existsb exceeds
                 (Dict.values (sweep_diff corpus damping_factor prev)) = false.
Proof.
  intros Hne Hok Hd0 Hd1.
  induction fuel as [|fuel IH]; intros rank r Hkeys Hrank H; [discriminate|].
  rewrite (iterate_loop_step _ _ _ _ Hne Hok Hkeys) in H.
  destruct (existsb _ _) eqn:Ex.
  - apply (IH (sweep_value corpus damping_factor rank) r
               (keys_sweep_value _ _ _)); [|exact H].
    apply values_pos_nonneg, values_sweep_value_pos; assumption.
  - injection H as <-. exists rank. auto.
Qed.

Lemma converged_change (corpus : Corpus) (damping_factor : Q)
      (rank : Distribution) :
  existsb exceeds (Dict.values (sweep_diff corpus damping_factor rank)) = false ->
  sweep_change corpus damping_factor rank <= len corpus * threshold.
Proof.
  intros Hex. unfold sweep_change.
  rewrite Qmult_comm, <- Qsum_const.
  apply Qsum_le. intros kv Hkv.
  set (v := Qabs _).
  assert (Hin : In v (Dict.values (sweep_diff corpus damping_factor rank))).
  { rewrite values_sweep_diff.
    apply (in_map (fun kv => Qabs (lookup rank (fst kv)
                     - new_rank corpus damping_factor rank (fst kv))) _ _ Hkv). }
  destruct (exceeds v) eqn:Ev.
  - assert (existsb exceeds
              (Dict.values (sweep_diff corpus damping_factor rank)) = true)
      by (apply existsb_exists; exists v; auto).
    congruence.
  - unfold exceeds in Ev. apply negb_false_iff, Qle_bool_iff in Ev. exact Ev.
Qed.

(** X8: what the ranks returned by [iterate_pagerank] satisfy, in exact
    arithmetic. For a non-empty corpus whose links are distinct pages of
    the corpus and d in (0,1), the loop stops, and the returned ranks (after
    the normalisation of lines 148-153) sum to 1 within 1e-6 and satisfy,
    for every page p and within 2 * d * N * 0.001 / (1 - d), the recurrence
    rank(p) = (1 - d)/N + d * (sum over the pages i that link to p of
    rank(i)/NumLinks(i)) + d * (sum over the pages i without links of
    rank(i)/N), in which a page without links counts as linking to every
    page; N is the number of pages and 0.001 the threshold of line 145. *)
Theorem iterate_pagerank_stationary (corpus : Corpus) (damping_factor : Q) :
  corpus <> [] -> dict_ok corpus -> links_closed corpus -> sets_ok corpus ->
  0 < damping_factor -> damping_factor < 1 ->
  (exists fuel r, iterate_pagerank fuel corpus damping_factor = Ret r)
  /\ (forall fuel r,
         iterate_pagerank fuel corpus damping_factor = Ret r ->
         Qabs (total r - 1) <= 1 # 1000000
         /\ forall p,
             In p (Dict.keys corpus) ->
             Qabs (lookup r p - spec_new_rank corpus damping_factor r p)
             <= 2 * damping_factor * (len corpus * threshold)
                / (1 - damping_factor)).
Proof.
  intros Hne Hok Hclosed Hsets Hd0 Hd1.
  assert (Hd0' : 0 <= damping_factor) by lra.
  split.
  - destruct (iterate_pagerank_exists corpus damping_factor Hne Hok Hd0 Hd1)
      as [fuel [r [Hr _]]].
    exists fuel, r. exact Hr.
  - intros fuel r H. unfold iterate_pagerank in H.
    rewrite (initial_computes corpus Hne Hok) in H; cbn [bind] in H.
    apply bind_ret_inv in H. destruct H as [d1 [Eloop Hnorm]].
    destruct (iterate_loop_exit corpus damping_factor fuel Hne Hok Hd0' Hd1
                _ _ (keys_initial_rank corpus)
                (values_pos_nonneg _ (initial_rank_pos corpus Hne)) Eloop)
      as [prev [Hkp [Hnp [-> Hex]]]].
    set (r1 := sweep_value corpus damping_factor prev) in *.
    assert (Hk1 : Dict.keys r1 = Dict.keys corpus) by apply keys_sweep_value.
    assert (Hok1 : dict_ok r1) by (unfold dict_ok; rewrite Hk1; exact Hok).
    assert (Hne1 : r1 <> []).
    { intros E. rewrite E in Hk1. destruct corpus; [congruence | discriminate]. }
    assert (Hpos1 : Forall (fun v => 0 < v) (Dict.values r1))
      by (apply values_sweep_value_pos; assumption).
    pose proof (total_pos r1 Hne1 Hpos1) as Htot.
    pose proof (sum_pagerank_total r1) as Hsum.
    rewrite (normalize_computes r1 Hok1) in Hnorm by (intros _; lra).
    injection Hnorm as <-. split.
    + assert (Ht : total (map (fun kv : page * Q =>
                                 (fst kv, snd kv / sum_pagerank_of r1)) r1) == 1).
      { rewrite total_scaled, Hsum. field. lra. }
      rewrite Ht. vm_compute. discriminate.
    + intros p Hp.
      eapply Qle_trans;
        [apply (normalized_sweep_residual corpus damping_factor prev p);
         assumption|].
      pose proof (converged_change corpus damping_factor prev Hex) as Hchg.
      set (E := sweep_change corpus damping_factor prev) in *.
      set (T := len corpus * threshold) in *.
      apply Qle_shift_div_l; [lra|].
      assert (Eq : 2 * damping_factor * E / (1 - damping_factor)
                   * (1 - damping_factor) == 2 * damping_factor * E)
        by (field; lra).
      rewrite Eq.
      assert (damping_factor * E <= damping_factor * T)
        by (apply Qmult_le_l_nonneg; assumption).
      lra.
Qed.

Lemma iterate_pagerank_stationary_witness :
  (exists fuel r, iterate_pagerank fuel corpus_chain (1 # 2) = Ret r)
  /\ (forall fuel r,
         iterate_pagerank fuel corpus_chain (1 # 2) = Ret r ->
         Qabs (total r - 1) <= 1 # 1000000
         /\ forall p,
             In p (Dict.keys corpus_chain) ->
             Qabs (lookup r p - spec_new_rank corpus_chain (1 # 2) r p)
             <= 2 * (1 # 2) * (len corpus_chain * threshold) / (1 - (1 # 2))).
Proof.
  apply (iterate_pagerank_stationary corpus_chain (1 # 2)).
  - discriminate.
  - unfold dict_ok. simpl. repeat constructor; simpl; intuition discriminate.
  - exact corpus_chain_closed.
  - repeat constructor; simpl; tauto.
  - reflexivity.
  - reflexivity.
Defined.

(** * crawl on a file system *)

Lemma foreach_app {A S : Type} (body : A -> S -> outcome S) (xs ys : list A) :
  forall s : S,
    foreach (xs ++ ys) s body = (s' <- foreach xs s body ;; foreach ys s' body).
Proof.
  induction xs as [|x xs IH]; intros s; cbn [app foreach bind]; [reflexivity|].
  destruct (body x s) as [s1| |]; cbn [bind]; [apply IH | reflexivity | reflexivity].
Qed.

Lemma html_readable_cons (entry : string * file) (entries : list (string * file)) :
  html_readable (entry :: entries) -> html_readable entries.
Proof.
  intros H name e Hin. apply (H name e). right; exact Hin.
Qed.

Lemma texts_of_names (entries : list (string * file)) :
  map fst (texts_of entries) = map fst entries.
Proof.
  unfold texts_of. rewrite map_map. reflexivity.
Qed.

Lemma html_names (entries : list (string * file)) :
  map fst (html_entries (texts_of entries))
  = filter (fun name => endswith name ".html") (map fst entries).
Proof.
  unfold html_entries, texts_of.
  induction entries as [|[name f] entries IH]; simpl; [reflexivity|].
  destruct (endswith name ".html"); simpl; rewrite IH; reflexivity.
Qed.

(** When every ".html" entry can be read, [crawl_files] is [crawl] on the
    texts read. *)
Lemma crawl_files_readable (findall : string -> list string)
      (entries : list (string * file)) :
  html_readable entries ->
  crawl_files findall (Ret entries) = crawl findall (texts_of entries).
Proof.
  intros Hread. unfold crawl_files, crawl. cbv zeta. cbn [bind].
  assert (Hscan : forall pre : Corpus,
    foreach entries pre
      (fun (entry : string * file) (pages : Corpus) =>
         let '(filename, f) := entry in
         if negb (endswith filename ".html") then Ret pages
         else
           contents <- read_file f ;;
           Ret (Dict.set pages filename
                         (set_minus (set_of (findall contents)) [filename])))
    = foreach (texts_of entries) pre
      (fun (entry : string * string) (pages : Corpus) =>
         let '(filename, contents) := entry in
         if negb (endswith filename ".html") then Ret pages
         else
           Ret (Dict.set pages filename
                         (set_minus (set_of (findall contents)) [filename])))).
  { induction entries as [|[name f] entries IH]; intros pre; [reflexivity|].
    cbn [texts_of map foreach fst snd].
    destruct (endswith name ".html") eqn:Eh; cbn [negb].
    - destruct f as [contents|e].
      + cbn [read_file text_of bind].
        apply (IH (html_readable_cons _ _ Hread)).
      + rewrite (Hread name e (or_introl eq_refl)) in Eh. discriminate.
    - cbn [bind]. apply (IH (html_readable_cons _ _ Hread)). }
  rewrite Hscan. reflexivity.
Qed.

Lemma crawl_files_scan_returns (findall : string -> list string)
      (entries : list (string * file)) :
  html_readable entries ->
  forall pre : Corpus,
    exists pages,
      foreach entries pre
        (fun (entry : string * file) (pages : Corpus) =>
           let '(filename, f) := entry in
           if negb (endswith filename ".html") then Ret pages
           else
             contents <- read_file f ;;
             Ret (Dict.set pages filename
                           (set_minus (set_of (findall contents)) [filename])))
      = Ret pages.
Proof.
  induction entries as [|[name f] entries IH]; intros Hread pre.
  - exists pre. reflexivity.
  - cbn [foreach].
    destruct (endswith name ".html") eqn:Eh; cbn [negb].
    + destruct f as [contents|e].
      * cbn [read_file bind]. apply (IH (html_readable_cons _ _ Hread)).
      * rewrite (Hread name e (or_introl eq_refl)) in Eh. discriminate.
    + cbn [bind]. apply (IH (html_readable_cons _ _ Hread)).
Qed.

Lemma example_files_names : NoDup (map fst example_files).
Proof.
  simpl. repeat constructor; simpl; intuition discriminate.
Qed.

Lemma example_files_readable : html_readable example_files.
Proof.
  intros name e H. simpl in H.
  destruct H as [H|[H|[H|[H|[]]]]]; try discriminate.
  injection H as <- _. reflexivity.
Qed.

(** X9: for a directory whose names are distinct and whose entries ending
    in ".html" can all be read, [crawl] returns a corpus whose keys are
    distinct and are the names of the directory that end in ".html", in
    the order of the listing; every other entry is skipped without being
    opened. *)
Theorem crawl_files_pages (findall : string -> list string)
        (entries : list (string * file)) :
  NoDup (map fst entries) ->
  html_readable entries ->
  exists corpus,
    crawl_files findall (Ret entries) = Ret corpus
    /\ Dict.keys corpus
       = filter (fun name => endswith name ".html") (map fst entries)
    /\ dict_ok corpus
    /\ forall f, In f (Dict.keys corpus)
                 <-> In f (map fst entries) /\ endswith f ".html" = true.
Proof.
  intros Hnd Hread.
  assert (Hnd' : NoDup (map fst (texts_of entries)))
    by (rewrite texts_of_names; exact Hnd).
  exists (crawl_value findall (texts_of entries)).
  split; [rewrite (crawl_files_readable findall entries Hread);
          apply crawl_computes, Hnd'|].
  split; [rewrite keys_crawl_value; apply html_names|].
  split; [apply crawl_value_ok, Hnd'|].
  intros f. rewrite keys_crawl_value, html_entries_In, texts_of_names.
  reflexivity.
Qed.

Lemma crawl_files_pages_witness :
  exists corpus,
    crawl_files example_findall (Ret example_files) = Ret corpus
    /\ Dict.keys corpus
       = filter (fun name => endswith name ".html") (map fst example_files)
    /\ dict_ok corpus
    /\ forall f, In f (Dict.keys corpus)
                 <-> In f (map fst example_files) /\ endswith f ".html" = true.
Proof.
  apply (crawl_files_pages example_findall example_files).
  - exact example_files_names.
  - exact example_files_readable.
Defined.

(** X13: [crawl] has no handler around lines 33-37. A failing
    [os.listdir] is passed on, and when an entry whose name ends in
    ".html" cannot be read, [crawl] fails with the exception of the first
    such entry of the listing, whatever follows it. *)
Theorem crawl_files_unreadable (findall : string -> list string)
        (before after : list (string * file)) (name : string) (e : pyerr) :
  html_readable before ->
  endswith name ".html" = true ->
  crawl_files findall (Ret (before ++ (name, Unreadable e) :: after)) = Raise e
  /\ crawl_files findall (Raise e) = Raise e.
Proof.
  intros Hread Hname. split; [|reflexivity].
  unfold crawl_files. cbv zeta. cbn [bind].
  rewrite foreach_app.
  destruct (crawl_files_scan_returns findall before Hread []) as [pages Hp].
  rewrite Hp. cbn [bind foreach]. rewrite Hname. reflexivity.
Qed.

Lemma crawl_files_unreadable_witness :
  crawl_files example_findall
    (Ret ([("1.html"%string, Readable "23");
           ("notes.txt"%string, Unreadable OSError)]
          ++ ("2.html"%string, Unreadable UnicodeDecodeError)
          :: [("3.html"%string, Unreadable OSError)]))
  = Raise UnicodeDecodeError
  /\ crawl_files example_findall (Raise UnicodeDecodeError)
     = Raise UnicodeDecodeError.
Proof.
  apply (crawl_files_unreadable example_findall
           [("1.html", Readable "23"); ("notes.txt", Unreadable OSError)]%string
           [("3.html", Unreadable OSError)]%string "2.html"%string
           UnicodeDecodeError).
  - intros name e H. simpl in H.
    destruct H as [H|[H|[]]]; try discriminate.
    injection H as <- _. reflexivity.
  - reflexivity.
Defined.

(** X11: [crawl] hands both engines a corpus they accept. For a directory
    whose names are distinct, whose entries ending in ".html" can all be
    read and are at least one, and a damping factor in (0,1), [crawl]
    returns a corpus on which [sample_pagerank] returns for every n and
    every state of the random generator, and on which the loop of
    [iterate_pagerank] stops and returns ranks for exactly the pages of
    the corpus that sum to 1 within 1e-6. *)
Theorem crawl_files_then_rank (findall : string -> list string)
        (entries : list (string * file)) (damping_factor : Q) :
  NoDup (map fst entries) ->
  html_readable entries ->
  (exists name, In name (map fst entries) /\ endswith name ".html" = true) ->
  0 < damping_factor -> damping_factor < 1 ->
  exists corpus,
    crawl_files findall (Ret entries) = Ret corpus
    /\ (forall n g, exists r,
           sample_pagerank corpus damping_factor n g = Ret r)
    /\ (exists fuel r,
           iterate_pagerank fuel corpus damping_factor = Ret r
           /\ Dict.keys r = Dict.keys corpus
           /\ Qabs (total r - 1) <= 1 # 1000000).
Proof.
  intros Hnd Hread [name [Hin Hname]] Hd0 Hd1.
  assert (Hnd' : NoDup (map fst (texts_of entries)))
    by (rewrite texts_of_names; exact Hnd).
  exists (crawl_value findall (texts_of entries)).
  assert (Hne : crawl_value findall (texts_of entries) <> []).
  { intros E.
    assert (Hk : In name (Dict.keys (crawl_value findall (texts_of entries)))).
    { rewrite keys_crawl_value, html_entries_In, texts_of_names. auto. }
    rewrite E in Hk. destruct Hk. }
  split; [rewrite (crawl_files_readable findall entries Hread);
          apply crawl_computes, Hnd'|].
  split.
  - intros n g. apply sample_pagerank_returns;
      [exact Hne | apply crawl_value_closed | exact Hd0 | exact Hd1].
  - destruct (iterate_pagerank_exists _ damping_factor Hne
                (crawl_value_ok findall _ Hnd') Hd0 Hd1)
      as [fuel [r [Hr [Hk Ht]]]].
    exists fuel, r. split; [exact Hr|]. split; [exact Hk|].
    rewrite Ht. vm_compute. discriminate.
Qed.

Lemma crawl_files_then_rank_witness :
  exists corpus,
    crawl_files example_findall (Ret example_files) = Ret corpus
    /\ (forall n g, exists r,
           sample_pagerank corpus (17 # 20) n g = Ret r)
    /\ (exists fuel r,
           iterate_pagerank fuel corpus (17 # 20) = Ret r
           /\ Dict.keys r = Dict.keys corpus
           /\ Qabs (total r - 1) <= 1 # 1000000).
Proof.
  apply (crawl_files_then_rank example_findall example_files (17 # 20)).
  - exact example_files_names.
  - exact example_files_readable.
  - exists "1.html"%string. split; [simpl; tauto | reflexivity].
  - reflexivity.
  - reflexivity.
Defined.
